(** * securestore: the credential store adapter of ocm-sdk-go

    A shallow embedding of [authentication/securestore/main.go].

    The adapter talks to two collaborators that are not part of the
    repository: the [github.com/99designs/keyring] package (the OS secure
    stores) and Go's [compress/gzip].  The keyring is kept abstract: the
    adapter's functions are program trees over the four keyring calls, and a
    [Keyring] instance gives the calls a meaning on some world.  The gzip
    container (header, CRC-32, length trailer, multi-member reading) is
    written out; the DEFLATE coder inside it is the abstract [Flate]. *)

From Stdlib Require Import ZArith NArith Ascii List Lia.
From Stdlib.Strings Require Import Byte.
From stdpp Require Import base decidable option list strings gmap pretty.

Local Open Scope string_scope.
Local Open Scope list_scope.

(** ** Errors *)

(** Go compares [error] values by identity: the package-level sentinels are
    constructors of their own, a value built by [fmt.Errorf] at run time is
    [Errorf], and every other error of a collaborator is [ExternalError]. *)
Inductive error : Type :=
  | ErrKeyringUnavailable
  | ErrKeyringInvalid
  | ErrKeyNotFound
  | gzip_ErrHeader
  | gzip_ErrChecksum
  | io_EOF
  | io_ErrUnexpectedEOF
  | Errorf (msg : string)
  | ExternalError (msg : string).

#[global] Instance error_eq_dec : EqDecision error.
Proof. solve_decision. Defined.

(** A Go result pair [(T, error)] whose value is only read when the error is
    [nil]. *)
Inductive result (A : Type) : Type :=
  | Ok (a : A)
  | Err (e : error).
Arguments Ok {A} a.
Arguments Err {A} e.

(** ** Constants of the package *)

Definition KindInternetPassword : string := "Internet password".
Definition ItemKey : string := "RedHatSSO".
Definition CollectionName : string := "login".
Definition MaxWindowsByteSize : nat := 2500.

(** The backend identifiers of the keyring package. *)
Definition WinCredBackend : string := "wincred".
Definition KeychainBackend : string := "keychain".
Definition SecretServiceBackend : string := "secret-service".
Definition PassBackend : string := "pass".

Definition AllowedBackends : list string :=
  [WinCredBackend; KeychainBackend; SecretServiceBackend; PassBackend].

(** What [keyring.AvailableBackends()] of the keyring package, which is not
    part of the repository, reports: the backends of the package's fixed
    order that the build supports, in that order. *)
Definition keyring_backendOrder : list string :=
  [WinCredBackend; KeychainBackend; SecretServiceBackend; "kwallet";
   "keyctl"; PassBackend; "file"].

Definition keyring_report (supported : string -> bool)
  : list string :=
  filter (fun k => supported k = true) keyring_backendOrder.

(** [strings.Join] and [strings.Contains]. *)
Definition strings_Join (elems : list string) (sep : string) : string :=
  String.concat sep elems.

Fixpoint strings_Contains (s substr : string) : bool :=
  String.prefix substr s ||
  match s with
  | EmptyString => false
  | String _ s' => strings_Contains s' substr
  end.

(** The [Error()] method. *)
Definition error_Error (e : error) : string :=
  match e with
  | ErrKeyringUnavailable =>
      "keyring is valid but is not available on the current OS"
  | ErrKeyringInvalid =>
      "keyring is invalid, expected one of: ["
        +:+ strings_Join AllowedBackends ", " +:+ "]"
  | ErrKeyNotFound => "The specified item could not be found in the keyring"
  | gzip_ErrHeader => "gzip: invalid header"
  | gzip_ErrChecksum => "gzip: invalid checksum"
  | io_EOF => "EOF"
  | io_ErrUnexpectedEOF => "unexpected EOF"
  | Errorf msg => msg
  | ExternalError msg => msg
  end.

(** ** Backend validation *)

Section Validation.
(** What [keyring.AvailableBackends()] reports on this OS and build. *)
Variable keyring_AvailableBackends : list string.

(** The nested [range] loops: [b] grows by [append]. *)
Definition AvailableBackends : list string :=
  foldl (fun b avail =>
           foldl (fun b allowed =>
                    if decide (avail = allowed) then b ++ [allowed] else b)
                 b AllowedBackends)
        [] keyring_AvailableBackends.

(** A [range] loop that sets a flag and breaks at the first hit. *)
Fixpoint range_until (backend : string) (l : list string) : bool :=
  match l with
  | [] => false
  | x :: l' => if decide (x = backend) then true else range_until backend l'
  end.

Definition IsBackendAvailable (backend : string) : bool :=
  if decide (backend = "") then false
  else range_until backend AvailableBackends.

Definition ValidateBackend (backend : string) : option error :=
  if decide (backend = "") then Some ErrKeyringInvalid
  else
    let isAllowedBackend := range_until backend AllowedBackends in
    if negb isAllowedBackend then Some ErrKeyringInvalid
    else if negb (IsBackendAvailable backend) then Some ErrKeyringUnavailable
    else None.
End Validation.

(** ** Bytes and integers *)

#[global] Instance byte_eq_decision : EqDecision byte := Byte.byte_eq_dec.

Definition byte_of_N (n : N) : byte :=
  default x00 (Byte.of_N (n mod 256)).

(** [binary.LittleEndian]: [PutUint32], [Uint32] and [Uint16].  The value
    written is a [uint32], so only its low 32 bits reach the buffer. *)
Definition le_PutUint32 (v : N) : list byte :=
  [byte_of_N v; byte_of_N (v / 256); byte_of_N (v / 65536);
   byte_of_N (v / 16777216)].

Fixpoint le_Uint (b : list byte) : N :=
  match b with
  | [] => 0
  | x :: b' => Byte.to_N x + 256 * le_Uint b'
  end.

Definition le_Uint32 (b : list byte) : N := le_Uint (take 4 b).
Definition le_Uint16 (b : list byte) : N := le_Uint (take 2 b).

(** Conversion of an [int] to [uint32]. *)
Definition uint32 (n : N) : N := n mod 2 ^ 32.

(** ** hash/crc32, IEEE polynomial, the table-driven update *)

Module crc32.
Definition IEEE : N := 0xedb88320.

(** One round of the table construction: [crc&1 == 1] selects the
    polynomial. *)
Definition round (crc : N) : N :=
  if N.odd crc then N.lxor (N.shiftr crc 1) IEEE else N.shiftr crc 1.

(** Entry [i] of [IEEETable]. *)
Definition tab (i : N) : N := N.iter 8 round i.

(** Bitwise complement of a [uint32]. *)
Definition compl (crc : N) : N := N.lxor crc 0xffffffff.

Definition Update (crc : N) (p : list byte) : N :=
  compl (fold_left
           (fun crc v =>
              N.lxor (tab (N.lxor (crc mod 256) (Byte.to_N v)))
                     (N.shiftr crc 8))
           p (compl crc)).

Definition ChecksumIEEE (p : list byte) : N := Update 0 p.
End crc32.

(** ** compress/flate *)

(** The DEFLATE coder behind the gzip container.  [flate_compress x] is all
    that a compressor at the default level has written once [x] was written
    to it and it was closed.  [flate_decompress r] reads one DEFLATE stream
    from the front of [r] up to its final block and returns the data and the
    number of bytes of [r] it took, or the error of the decompressor. *)
Class Flate : Type := {
  flate_compress : list byte -> list byte;
  flate_decompress : list byte -> result (list byte * nat)
}.

(** What the adapter relies on: a stream a compressor wrote is read back,
    whatever follows it, and the reader stops right behind it. *)
Definition flate_lawful (F : Flate) : Prop :=
  forall x rest : list byte,
    flate_decompress (flate_compress x ++ rest)
    = Ok (x, length (flate_compress x)).

(** ** compress/gzip *)

Module gzip.
Definition gzipID1 : byte := x1f.
Definition gzipID2 : byte := x8b.
Definition gzipDeflate : byte := x08.
Definition flagHdrCrc : N := 2.
Definition flagExtra : N := 4.
Definition flagName : N := 8.
Definition flagComment : N := 16.

(** [io.ReadFull] of [n] bytes from the front of [r]. *)
Definition io_ReadFull (r : list byte) (n : nat)
  : result (list byte * list byte) :=
  match n, r with
  | O, _ => Ok ([], r)
  | S _, [] => Err io_EOF
  | S _, _ :: _ =>
      if (length r <? n)%nat then Err io_ErrUnexpectedEOF
      else Ok (take n r, drop n r)
  end.

Definition noEOF (e : error) : error :=
  if decide (e = io_EOF) then io_ErrUnexpectedEOF else e.

Section WithFlate.
Context {F : Flate}.

(** The writer over a [bytes.Buffer]: [out] is the buffer, [pending] the
    data handed to the compressor so far.  Writing to a buffer cannot
    fail, so the sticky error of the Go writer stays [nil]. *)
Record Writer : Type := {
  out : list byte;
  wroteHeader : bool;
  pending : list byte;
  digest : N;
  size : N
}.

Definition NewWriter : Writer :=
  {| out := []; wroteHeader := false; pending := []; digest := 0;
     size := 0 |}.

(** The header of a writer made by [NewWriter]: no extra field, name or
    comment, no modification time, default level, unknown OS. *)
Definition header : list byte :=
  [gzipID1; gzipID2; gzipDeflate; x00; x00; x00; x00; x00; x00; xff].

Definition Write (z : Writer) (p : list byte) : Writer * option error :=
  let o := if wroteHeader z then out z else out z ++ header in
  ({| out := o; wroteHeader := true; pending := pending z ++ p;
      digest := crc32.Update (digest z) p;
      size := uint32 (size z + N.of_nat (length p)) |}, None).

Definition Close (z : Writer) : Writer * option error :=
  let z := if wroteHeader z then z else fst (Write z []) in
  ({| out := out z ++ flate_compress (pending z)
               ++ le_PutUint32 (digest z) ++ le_PutUint32 (size z);
      wroteHeader := true; pending := pending z; digest := digest z;
      size := size z |}, None).

(** [readString]: a NUL-terminated field of at most [n] bytes, the
    terminator included. *)
Fixpoint readString (n : nat) (r : list byte)
  : result (list byte * list byte) :=
  match n with
  | O => Err gzip_ErrHeader
  | S n' =>
      match r with
      | [] => Err io_EOF
      | b :: r' =>
          if decide (b = x00) then Ok ([b], r')
          else match readString n' r' with
               | Ok (s, r'') => Ok (b :: s, r'')
               | Err e => Err e
               end
      end
  end.

Definition has_flag (flg : byte) (f : N) : bool :=
  negb (N.land (Byte.to_N flg) f =? 0)%N.

(** The optional fields behind the ten fixed bytes; [d] is the running
    header digest. *)
Definition readExtra (flg : byte) (d : N) (r : list byte)
  : result (N * list byte) :=
  if has_flag flg flagExtra then
    match io_ReadFull r 2 with
    | Err e => Err (noEOF e)
    | Ok (l, r) =>
        let d := crc32.Update d l in
        match io_ReadFull r (N.to_nat (le_Uint16 l)) with
        | Err e => Err (noEOF e)
        | Ok (data, r) => Ok (crc32.Update d data, r)
        end
    end
  else Ok (d, r).

Definition readField (flg : byte) (f : N) (d : N) (r : list byte)
  : result (N * list byte) :=
  if has_flag flg f then
    match readString 512 r with
    | Err e => Err (noEOF e)
    | Ok (s, r) => Ok (crc32.Update d s, r)
    end
  else Ok (d, r).

Definition readHdrCrc (flg : byte) (d : N) (r : list byte)
  : result (list byte) :=
  if has_flag flg flagHdrCrc then
    match io_ReadFull r 2 with
    | Err e => Err (noEOF e)
    | Ok (l, r) =>
        if decide (le_Uint16 l = (d mod 2 ^ 16)%N) then Ok r
        else Err gzip_ErrHeader
    end
  else Ok r.

(** [readHeader]: the input left behind the header. *)
Definition readHeader (r : list byte) : result (list byte) :=
  match io_ReadFull r 10 with
  | Err e => Err e
  | Ok (buf, r) =>
      match buf with
      | id1 :: id2 :: cm :: flg :: _ =>
          if decide (id1 = gzipID1 /\ id2 = gzipID2 /\ cm = gzipDeflate)
          then
            match readExtra flg (crc32.ChecksumIEEE buf) r with
            | Err e => Err e
            | Ok (d, r) =>
                match readField flg flagName d r with
                | Err e => Err e
                | Ok (d, r) =>
                    match readField flg flagComment d r with
                    | Err e => Err e
                    | Ok (d, r) => readHdrCrc flg d r
                    end
                end
            end
          else Err gzip_ErrHeader
      | _ => Err gzip_ErrHeader
      end
  end.

(** A reader is the input that is left, positioned behind a header. *)
Definition NewReader (r : list byte) : result (list byte) := readHeader r.

(** [io.ReadAll] over [Reader.Read] in multistream mode: one member per
    round, until the input ends at a member boundary.  [fuel] bounds the
    rounds; each round takes at least a trailer and a header from the
    input, so with the length of the input as fuel the bound is never hit
    ([readMembers_fuel] below). *)
Fixpoint readMembers (fuel : nat) (r acc : list byte)
  : list byte * option error :=
  match flate_decompress r with
  | Err e => (acc, Some e)
  | Ok (data, n) =>
      let acc := acc ++ data in
      match io_ReadFull (drop n r) 8 with
      | Err e => (acc, Some (noEOF e))
      | Ok (buf, r) =>
          if decide (le_Uint32 buf = crc32.ChecksumIEEE data /\
                     le_Uint32 (drop 4 buf)
                     = uint32 (N.of_nat (length data)))
          then
            match readHeader r with
            | Err e =>
                if decide (e = io_EOF) then (acc, None) else (acc, Some e)
            | Ok r =>
                match fuel with
                | O => (acc, Some io_ErrUnexpectedEOF)
                | S fuel => readMembers fuel r acc
                end
            end
          else (acc, Some gzip_ErrChecksum)
      end
  end.

Definition io_ReadAll (r : list byte) : list byte * option error :=
  readMembers (length r) r [].
End WithFlate.
End gzip.

(** ** The byte codec of the adapter *)

Section Codec.
Context {F : Flate}.

Definition compressConfig (creds : list byte) : list byte * option error :=
  let gz := gzip.NewWriter in
  match gzip.Write gz creds with
  | (_, Some err) => ([], Some err)
  | (gz, None) =>
      match gzip.Close gz with
      | (_, Some err) => ([], Some err)
      | (gz, None) => (gzip.out gz, None)
      end
  end.

Definition decompressConfig (creds : list byte)
  : list byte * option error :=
  match gzip.NewReader creds with
  | Err err => ([], Some err)
  | Ok gzreader =>
      match gzip.io_ReadAll gzreader with
      | (_, Some err) => ([], Some err)
      | (output, None) => (output, None)
      end
  end.
End Codec.

(** ** The keyring package *)

Record Config : Type := {
  cfg_AllowedBackends : list string;
  ServiceName : string;
  KeychainName : string;
  KeychainTrustApplication : bool;
  KeychainSynchronizable : bool;
  KeychainAccessibleWhenUnlocked : bool;
  WinCredPrefix : string;
  LibSecretCollectionName : string
}.

Record Item : Type := {
  Key : string;
  Data : list byte;
  Label : string;
  Description : string
}.

Definition getKeyringConfig (backend : string) : Config :=
  {| cfg_AllowedBackends := [backend];
     ServiceName := ItemKey;
     KeychainName := CollectionName;
     KeychainTrustApplication := true;
     KeychainSynchronizable := false;
     KeychainAccessibleWhenUnlocked := false;
     WinCredPrefix := ItemKey;
     LibSecretCollectionName := CollectionName |}.

(** A program of the adapter: a result, or one call into the keyring and
    what the program does with each answer.  [Ring] is the handle that
    [keyring.Open] hands out. *)
Inductive Prog (Ring R : Type) : Type :=
  | Ret (r : R)
  | Open (cfg : Config) (k : result Ring -> Prog Ring R)
  | Get (ring : Ring) (key : string) (k : result Item -> Prog Ring R)
  | Set_ (ring : Ring) (item : Item) (k : option error -> Prog Ring R)
  | Remove (ring : Ring) (key : string) (k : option error -> Prog Ring R).
Arguments Ret {Ring R} r.
Arguments Open {Ring R} cfg k.
Arguments Get {Ring R} ring key k.
Arguments Set_ {Ring R} ring item k.
Arguments Remove {Ring R} ring key k.

(** The calls a program made, in order. *)
Inductive Call (Ring : Type) : Type :=
  | CallOpen (cfg : Config)
  | CallGet (ring : Ring) (key : string)
  | CallSet (ring : Ring) (item : Item)
  | CallRemove (ring : Ring) (key : string).
Arguments CallOpen {Ring} cfg.
Arguments CallGet {Ring} ring key.
Arguments CallSet {Ring} ring item.
Arguments CallRemove {Ring} ring key.

(** An implementation of the keyring on a world [World]: every call may
    change the world. *)
Class Keyring (Ring World : Type) : Type := {
  keyring_Open : Config -> World -> result Ring * World;
  ring_Get : Ring -> string -> World -> result Item * World;
  ring_Set : Ring -> Item -> World -> option error * World;
  ring_Remove : Ring -> string -> World -> option error * World
}.

Section Run.
Context {Ring World : Type} {K : Keyring Ring World}.

(** Running a program: its result, the world it leaves, the calls it
    made. *)
Fixpoint run {R : Type} (p : Prog Ring R) (w : World)
  : R * World * list (Call Ring) :=
  match p with
  | Ret r => (r, w, [])
  | Open cfg k =>
      let '(a, w) := keyring_Open cfg w in
      let '(r, w, cs) := run (k a) w in (r, w, CallOpen cfg :: cs)
  | Get ring key k =>
      let '(a, w) := ring_Get ring key w in
      let '(r, w, cs) := run (k a) w in (r, w, CallGet ring key :: cs)
  | Set_ ring item k =>
      let '(a, w) := ring_Set ring item w in
      let '(r, w, cs) := run (k a) w in (r, w, CallSet ring item :: cs)
  | Remove ring key k =>
      let '(a, w) := ring_Remove ring key w in
      let '(r, w, cs) := run (k a) w in (r, w, CallRemove ring key :: cs)
  end.

Definition result_of {R : Type} (x : R * World * list (Call Ring)) : R :=
  x.1.1.
Definition world_of {R : Type} (x : R * World * list (Call Ring)) : World :=
  x.1.2.
Definition calls_of {R : Type} (x : R * World * list (Call Ring))
  : list (Call Ring) := x.2.
End Run.

(** ** The adapter *)

Section Adapter.
Context {F : Flate} {Ring : Type}.
Variable keyring_AvailableBackends : list string.

Definition UpsertConfigToKeyring (backend : string) (creds : list byte)
  : Prog Ring (option error) :=
  match ValidateBackend keyring_AvailableBackends backend with
  | Some err => Ret (Some err)
  | None =>
      Open (getKeyringConfig backend) (fun r =>
        match r with
        | Err err => Ret (Some err)
        | Ok ring =>
            match compressConfig creds with
            | (_, Some err) => Ret (Some err)
            | (compressed, None) =>
                if (MaxWindowsByteSize <? length compressed)%nat
                   && bool_decide (backend = WinCredBackend)
                then
                  Ret (Some (Errorf
                    ("credentials are too large for Windows Credential Manager: "
                       +:+ pretty (length compressed) +:+ " bytes (max "
                       +:+ pretty MaxWindowsByteSize +:+ ")")))
                else
                  Set_ ring
                    {| Label := ItemKey; Key := ItemKey;
                       Description := KindInternetPassword;
                       Data := compressed |}
                    (fun err => Ret err)
            end
        end)
  end.

Definition RemoveConfigFromKeyring (backend : string)
  : Prog Ring (option error) :=
  match ValidateBackend keyring_AvailableBackends backend with
  | Some err => Ret (Some err)
  | None =>
      Open (getKeyringConfig backend) (fun r =>
        match r with
        | Err err => Ret (Some err)
        | Ok ring =>
            Remove ring ItemKey (fun err =>
              match err with
              | Some e =>
                  if decide (e = ErrKeyNotFound) then Ret None
                  else if strings_Contains (error_Error e)
                                           "Keychain Error. (-25244)"
                  then
                    Ret (Some (Errorf
                      (error_Error e +:+ String "010"%char
                         "This application may not have permission to delete from the Keychain. Please check the permissions in the Keychain and try again")))
                  else Ret err
              | None => Ret err
              end)
        end)
  end.

Definition GetConfigFromKeyring (backend : string)
  : Prog Ring (list byte * option error) :=
  match ValidateBackend keyring_AvailableBackends backend with
  | Some err => Ret ([], Some err)
  | None =>
      let credentials : list byte := [] in
      Open (getKeyringConfig backend) (fun r =>
        match r with
        | Err err => Ret ([], Some err)
        | Ok ring =>
            Get ring ItemKey (fun i =>
              let after credentials :=
                if (length credentials =? 0)%nat then
                  Ret (credentials, None)
                else
                  match decompressConfig credentials with
                  | (_, Some err) => Ret ([], Some err)
                  | (creds, None) => Ret (creds, None)
                  end in
              match i with
              | Err err =>
                  if decide (err = ErrKeyNotFound) then after credentials
                  else Ret (credentials, Some err)
              | Ok i => after (Data i)
              end)
        end)
  end.
End Adapter.

(** What the round trip of the adapter relies on: after a [Set] that
    succeeded through a handle opened with [cfg], opening with [cfg] again
    succeeds and [Get] of the item's key answers an item with the same
    data. *)
Definition keeps_items {Ring World : Type} (K : Keyring Ring World) : Prop :=
  forall cfg w ring w1 item w2,
    keyring_Open cfg w = (Ok ring, w1) ->
    ring_Set ring item w1 = (None, w2) ->
    exists ring' w3 item' w4,
      keyring_Open cfg w2 = (Ok ring', w3) /\
      ring_Get ring' (Key item) w3 = (Ok item', w4) /\
      Data item' = Data item.

(** ** Instances of the collaborators *)

(** A DEFLATE coder that only uses stored blocks (RFC 1951, 3.2.4): a
    header byte with BFINAL in bit 0 and BTYPE = 0 in bits 1-2, LEN and its
    complement NLEN, then LEN bytes of data.  The input is cut into blocks
    of at most 65535 bytes; the fuel of [blocks] and [read_blocks] is the
    length of the input, more than the number of blocks. *)
Module stored.
Definition maxStoreBlockSize : nat := N.to_nat 65535.

Definition le_PutUint16 (v : N) : list byte :=
  [byte_of_N v; byte_of_N (v / 256)].

Definition block (final : bool) (x : list byte) : list byte :=
  (if final then x01 else x00)
    :: le_PutUint16 (N.of_nat (length x))
    ++ le_PutUint16 (65535 - N.of_nat (length x))
    ++ x.

Fixpoint blocks (fuel : nat) (x : list byte) : list byte :=
  match fuel with
  | O => block true x
  | S fuel =>
      if (length x <=? maxStoreBlockSize)%nat then block true x
      else block false (take maxStoreBlockSize x)
             ++ blocks fuel (drop maxStoreBlockSize x)
  end.

Definition compress (x : list byte) : list byte := blocks (length x) x.

Definition corrupt : error := ExternalError "flate: corrupt input".

Fixpoint read_blocks (fuel : nat) (r acc : list byte) (taken : nat)
  : result (list byte * nat) :=
  match r with
  | hdr :: l0 :: l1 :: n0 :: n1 :: r' =>
      let len := le_Uint [l0; l1] in
      if negb ((Byte.to_N hdr / 2) mod 4 =? 0)%N then Err corrupt
      else if negb (len + le_Uint [n0; n1] =? 65535)%N then Err corrupt
      else if (length r' <? N.to_nat len)%nat then Err io_ErrUnexpectedEOF
      else
        let acc := acc ++ take (N.to_nat len) r' in
        let taken := (taken + 5 + N.to_nat len)%nat in
        if N.odd (Byte.to_N hdr) then Ok (acc, taken)
        else
          match fuel with
          | O => Err io_ErrUnexpectedEOF
          | S fuel => read_blocks fuel (drop (N.to_nat len) r') acc taken
          end
  | _ => Err io_ErrUnexpectedEOF
  end.

Definition decompress (r : list byte) : result (list byte * nat) :=
  read_blocks (length r) r [] 0.

Definition flate : Flate :=
  {| flate_compress := compress; flate_decompress := decompress |}.
End stored.

(** A keyring held in memory: a handle is the backend it was opened for, the
    world maps a backend and a key to the item stored there. *)
Module memory.
Definition Ring : Type := string.
Abbreviation World := (gmap (string * string) Item).

Definition unavailable : error :=
  ExternalError "Specified keyring backend not available".

Definition open (cfg : Config) (w : World) : result Ring * World :=
  match cfg_AllowedBackends cfg with
  | b :: _ => (Ok b, w)
  | [] => (Err unavailable, w)
  end.

Definition get (ring : Ring) (key : string) (w : World)
  : result Item * World :=
  match w !! (ring, key) with
  | Some item => (Ok item, w)
  | None => (Err ErrKeyNotFound, w)
  end.

Definition set (ring : Ring) (item : Item) (w : World)
  : option error * World :=
  (None, <[(ring, Key item) := item]> w).

Definition remove (ring : Ring) (key : string) (w : World)
  : option error * World :=
  match w !! (ring, key) with
  | Some _ => (None, delete (ring, key) w)
  | None => (Some ErrKeyNotFound, w)
  end.

Definition keyring : Keyring Ring World :=
  {| keyring_Open := open; ring_Get := get; ring_Set := set;
     ring_Remove := remove |}.
End memory.

(** What a read after a removal relies on: after a [Remove] through a
    handle opened with [cfg] that answered no error or the not-found error,
    opening with [cfg] again succeeds and [Get] of that key answers the
    not-found error. *)
Definition forgets_items {Ring World : Type} (K : Keyring Ring World) : Prop :=
  forall cfg w ring w1 key r w2,
    keyring_Open cfg w = (Ok ring, w1) ->
    ring_Remove ring key w1 = (r, w2) ->
    r = None \/ r = Some ErrKeyNotFound ->
    exists ring' w3 w4,
      keyring_Open cfg w2 = (Ok ring', w3) /\
      ring_Get ring' key w3 = (Err ErrKeyNotFound, w4).

(** The keyring in memory with faults: each call that is given an error
    answers it and leaves the world alone, the others behave as in
    [memory]. *)
Module faulty.
Definition open (fault : option error) (cfg : Config) (w : memory.World)
  : result memory.Ring * memory.World :=
  match fault with
  | Some e => (Err e, w)
  | None => memory.open cfg w
  end.

Definition get (fault : option error) (ring : memory.Ring) (key : string)
    (w : memory.World) : result Item * memory.World :=
  match fault with
  | Some e => (Err e, w)
  | None => memory.get ring key w
  end.

Definition set (fault : option error) (ring : memory.Ring) (item : Item)
    (w : memory.World) : option error * memory.World :=
  match fault with
  | Some e => (Some e, w)
  | None => memory.set ring item w
  end.

Definition remove (fault : option error) (ring : memory.Ring) (key : string)
    (w : memory.World) : option error * memory.World :=
  match fault with
  | Some e => (Some e, w)
  | None => memory.remove ring key w
  end.

Definition keyring (fopen fget fset fremove : option error)
  : Keyring memory.Ring memory.World :=
  {| keyring_Open := open fopen; ring_Get := get fget; ring_Set := set fset;
     ring_Remove := remove fremove |}.
End faulty.

(** ** Vocabulary of the statements *)

(** The item that [UpsertConfigToKeyring] hands to [Set]. *)
Definition credentialItem (compressed : list byte) : Item :=
  {| Label := ItemKey; Key := ItemKey; Description := KindInternetPassword;
     Data := compressed |}.

(** The size-limit error of [UpsertConfigToKeyring] for a compressed length
    of [n] bytes. *)
Definition tooLarge (n : nat) : error :=
  Errorf ("credentials are too large for Windows Credential Manager: "
            +:+ pretty n +:+ " bytes (max " +:+ pretty MaxWindowsByteSize
            +:+ ")").

(** A well-formed gzip stream is one that the gzip reader opens and reads to
    its end without an error. *)
Definition gzip_well_formed {F : Flate} (data : list byte) : Prop :=
  exists r out, gzip.NewReader data = Ok r /\ gzip.io_ReadAll r = (out, None).

(** The error text that [RemoveConfigFromKeyring] looks for, and the hint it
    appends to an error that carries it. *)
Definition keychainDenied : string := "Keychain Error. (-25244)".

Definition permissionHint : string :=
  String "010"%char
    "This application may not have permission to delete from the Keychain. Please check the permissions in the Keychain and try again".

(** The trailer that the gzip writer puts behind the DEFLATE stream of
    [x]. *)
Definition trailer (x : list byte) : list byte :=
  le_PutUint32 (crc32.ChecksumIEEE x)
    ++ le_PutUint32 (uint32 (N.of_nat (length x))).

(** * Properties *)

(** ** Backend validation *)

Lemma range_until_elem_of (backend : string) (l : list string) :
  range_until backend l = bool_decide (backend ∈ l).
Proof.
  induction l as [|x l IH]; cbn.
  - symmetry. apply bool_decide_eq_false_2, not_elem_of_nil.
  - destruct (decide (x = backend)) as [Hx|Hx].
    + subst x. symmetry. apply bool_decide_eq_true_2, list_elem_of_here.
    + rewrite IH. apply bool_decide_ext. rewrite elem_of_cons.
      intuition congruence.
Qed.

Lemma elem_of_AllowedBackends (b : string) :
  b ∈ AllowedBackends <->
  b = WinCredBackend \/ b = KeychainBackend \/ b = SecretServiceBackend
  \/ b = PassBackend.
Proof.
  unfold AllowedBackends. rewrite !elem_of_cons, elem_of_nil. tauto.
Qed.

Lemma AllowedBackends_nonempty (b : string) : b ∈ AllowedBackends -> b <> "".
Proof.
  rewrite elem_of_AllowedBackends.
  intros [-> | [-> | [-> | ->]]]; discriminate.
Qed.

(** The inner loop appends [avail] once when it is allowed, and nothing
    otherwise. *)
Lemma inner_loop (b : list string) (avail : string) :
  foldl (fun b allowed =>
           if decide (avail = allowed) then b ++ [allowed] else b)
        b AllowedBackends
  = if bool_decide (avail ∈ AllowedBackends) then b ++ [avail] else b.
Proof.
  cbn [foldl AllowedBackends].
  destruct (decide (avail = WinCredBackend)) as [->|H1]; [reflexivity|].
  destruct (decide (avail = KeychainBackend)) as [->|H2]; [reflexivity|].
  destruct (decide (avail = SecretServiceBackend)) as [->|H3]; [reflexivity|].
  destruct (decide (avail = PassBackend)) as [->|H4]; [reflexivity|].
  symmetry. rewrite bool_decide_eq_false_2; [reflexivity|].
  rewrite elem_of_AllowedBackends. tauto.
Qed.

Lemma outer_loop (os acc : list string) :
  foldl (fun b avail =>
           foldl (fun b allowed =>
                    if decide (avail = allowed) then b ++ [allowed] else b)
                 b AllowedBackends)
        acc os
  = acc ++ filter (fun b => b ∈ AllowedBackends) os.
Proof.
  revert acc. induction os as [|avail os IH]; intros acc; cbn [foldl].
  - by rewrite filter_nil, app_nil_r.
  - rewrite inner_loop, IH, filter_cons. case_bool_decide as Hin.
    + rewrite decide_True by done. by rewrite <- app_assoc.
    + by rewrite decide_False by done.
Qed.

Lemma AvailableBackends_filter (os : list string) :
  AvailableBackends os = filter (fun b => b ∈ AllowedBackends) os.
Proof. unfold AvailableBackends. by rewrite outer_loop. Qed.

Lemma elem_of_AvailableBackends (os : list string) (b : string) :
  b ∈ AvailableBackends os <-> b ∈ AllowedBackends /\ b ∈ os.
Proof. rewrite AvailableBackends_filter, list_elem_of_filter. tauto. Qed.

Lemma ValidateBackend_unfold (os : list string) (b : string) :
  ValidateBackend os b =
  if decide (b = "") then Some ErrKeyringInvalid
  else if bool_decide (b ∈ AllowedBackends) then
         if bool_decide (b ∈ AvailableBackends os) then None
         else Some ErrKeyringUnavailable
       else Some ErrKeyringInvalid.
Proof.
  unfold ValidateBackend, IsBackendAvailable.
  destruct (decide (b = "")) as [Hb|Hb]; [reflexivity|].
  rewrite !range_until_elem_of.
  destruct (bool_decide (b ∈ AllowedBackends)); [|reflexivity].
  destruct (bool_decide (b ∈ AvailableBackends os)); reflexivity.
Qed.

Lemma ValidateBackend_None (os : list string) (b : string) :
  ValidateBackend os b = None <-> b ∈ AllowedBackends /\ b ∈ os.
Proof.
  rewrite ValidateBackend_unfold.
  destruct (decide (b = "")) as [Hb|Hb].
  { split; [discriminate|]. intros [Ha _].
    by apply AllowedBackends_nonempty in Ha. }
  destruct (bool_decide_reflect (b ∈ AllowedBackends)) as [Ha|Ha];
    [|split; [discriminate|tauto]].
  destruct (bool_decide_reflect (b ∈ AvailableBackends os)) as [Hv|Hv];
    rewrite elem_of_AvailableBackends in Hv; split;
    try discriminate; tauto.
Qed.

Example ErrKeyringInvalid_message :
  error_Error ErrKeyringInvalid
  = "keyring is invalid, expected one of: [wincred, keychain, secret-service, pass]".
Proof. reflexivity. Qed.

Example AvailableBackends_order :
  AvailableBackends [PassBackend; "kwallet"; WinCredBackend; "file"]
  = [PassBackend; WinCredBackend].
Proof. reflexivity. Qed.

(** ** Integers, little-endian fields and the checksum *)

Lemma to_N_byte_of_N (n : N) : Byte.to_N (byte_of_N n) = (n mod 256)%N.
Proof.
  unfold byte_of_N. destruct (Byte.of_N (n mod 256)) as [b|] eqn:Hb; cbn.
  - by apply Byte.to_of_N.
  - apply Byte.of_N_None_iff in Hb.
    pose proof (N.mod_upper_bound n 256). lia.
Qed.

Lemma le_Uint32_PutUint32 (v : N) (rest : list byte) :
  le_Uint32 (le_PutUint32 v ++ rest) = uint32 v.
Proof.
  unfold le_Uint32, le_PutUint32, uint32. cbn [app take le_Uint].
  rewrite !to_N_byte_of_N.
  change (2 ^ 32)%N with (256 * (256 * (256 * 256)))%N.
  rewrite !N.Div0.mod_mul_r.
  change 65536%N with (256 * 256)%N.
  change 16777216%N with (256 * 256 * 256)%N.
  rewrite <- !N.Div0.div_div, take_0. cbn [le_Uint]. lia.
Qed.

Lemma uint32_bound (n : N) : (uint32 n < 2 ^ 32)%N.
Proof. unfold uint32. apply N.mod_upper_bound. discriminate. Qed.

Lemma uint32_small (n : N) : (n < 2 ^ 32)%N -> uint32 n = n.
Proof. apply N.mod_small. Qed.

(** Values below [2^32] are those that the mask [2^32 - 1] leaves alone. *)
Lemma lt32_land (x : N) : (x < 2 ^ 32)%N <-> N.land x (N.ones 32) = x.
Proof.
  rewrite N.land_ones. split.
  - apply N.mod_small.
  - intros <-. apply N.mod_upper_bound. discriminate.
Qed.

Lemma lxor_lt32 (x y : N) :
  (x < 2 ^ 32)%N -> (y < 2 ^ 32)%N -> (N.lxor x y < 2 ^ 32)%N.
Proof.
  rewrite !lt32_land. intros Hx Hy.
  apply N.bits_inj. intros n. rewrite N.land_spec, N.lxor_spec.
  pose proof (f_equal (fun a => N.testbit a n) Hx) as Hxn.
  pose proof (f_equal (fun a => N.testbit a n) Hy) as Hyn.
  cbv beta in Hxn, Hyn. rewrite N.land_spec in Hxn, Hyn.
  destruct (N.testbit (N.ones 32) n).
  - apply andb_true_r.
  - rewrite andb_false_r in *. by rewrite <- Hxn, <- Hyn.
Qed.

Lemma shiftr_lt32 (x n : N) : (x < 2 ^ 32)%N -> (N.shiftr x n < 2 ^ 32)%N.
Proof.
  intros Hx. rewrite N.shiftr_div_pow2.
  eapply N.le_lt_trans; [|exact Hx].
  apply N.Div0.div_le_upper_bound.
  pose proof (N.pow_nonzero 2 n). nia.
Qed.

Lemma round_lt32 (x : N) : (x < 2 ^ 32)%N -> (crc32.round x < 2 ^ 32)%N.
Proof.
  intros Hx. unfold crc32.round. destruct (N.odd x).
  - apply lxor_lt32; [by apply shiftr_lt32|]. by vm_compute.
  - by apply shiftr_lt32.
Qed.

Lemma tab_lt32 (i : N) : (i < 2 ^ 32)%N -> (crc32.tab i < 2 ^ 32)%N.
Proof.
  intros Hi. unfold crc32.tab. cbn [N.iter Pos.iter].
  by do 8 apply round_lt32.
Qed.

Lemma Update_lt32 (crc : N) (p : list byte) :
  (crc < 2 ^ 32)%N -> (crc32.Update crc p < 2 ^ 32)%N.
Proof.
  intros Hc. unfold crc32.Update.
  assert (Hstart : (crc32.compl crc < 2 ^ 32)%N).
  { apply lxor_lt32; [done|by vm_compute]. }
  revert Hstart. generalize (crc32.compl crc) as c.
  induction p as [|v p IH]; intros c Hc'; cbn [fold_left].
  - apply lxor_lt32; [done|by vm_compute].
  - apply IH. apply lxor_lt32; [|by apply shiftr_lt32].
    apply tab_lt32. apply lxor_lt32.
    + eapply N.lt_trans; [apply N.mod_upper_bound; discriminate|by vm_compute].
    + pose proof (Byte.to_N_bounded v).
      eapply N.le_lt_trans; [eassumption|by vm_compute].
Qed.

Lemma ChecksumIEEE_lt32 (p : list byte) : (crc32.ChecksumIEEE p < 2 ^ 32)%N.
Proof. apply Update_lt32. by vm_compute. Qed.

Lemma compl_compl (crc : N) : crc32.compl (crc32.compl crc) = crc.
Proof.
  unfold crc32.compl.
  by rewrite N.lxor_assoc, N.lxor_nilpotent, N.lxor_0_r.
Qed.

(** The checksum of data that arrives in pieces is the checksum of the
    whole: the running digest of a reader is [ChecksumIEEE] of what it has
    read of the member. *)
Lemma Update_app (crc : N) (p q : list byte) :
  crc32.Update (crc32.Update crc p) q = crc32.Update crc (p ++ q).
Proof.
  unfold crc32.Update. by rewrite compl_compl, fold_left_app.
Qed.

Example ChecksumIEEE_check :
  crc32.ChecksumIEEE [x31; x32; x33; x34; x35; x36; x37; x38; x39]
  = 0xcbf43926%N.
Proof. vm_compute. reflexivity. Qed.

(** ** The gzip container *)

Section CodecFacts.
Context {F : Flate}.

(** What [compressConfig] writes: the fixed header, the DEFLATE stream,
    the checksum and the length of the input. *)
Lemma compressConfig_eq (x : list byte) :
  compressConfig x
  = (gzip.header ++ flate_compress x
       ++ le_PutUint32 (crc32.ChecksumIEEE x)
       ++ le_PutUint32 (uint32 (N.of_nat (length x))), None).
Proof. reflexivity. Qed.

Lemma readHeader_header (rest : list byte) :
  gzip.readHeader (gzip.header ++ rest) = Ok rest.
Proof. reflexivity. Qed.

Lemma readHeader_nil : gzip.readHeader [] = Err io_EOF.
Proof. reflexivity. Qed.

Lemma io_ReadFull_app (a rest : list byte) :
  gzip.io_ReadFull (a ++ rest) (length a) = Ok (a, rest).
Proof.
  unfold gzip.io_ReadFull. destruct a as [|b a]; [reflexivity|].
  cbn [length app].
  change (b :: a ++ rest) with ((b :: a) ++ rest).
  rewrite (proj2 (Nat.ltb_ge _ _)) by (rewrite length_app; cbn; lia).
  change (S (length a)) with (length (b :: a)).
  by rewrite take_app_length, drop_app_length.
Qed.

Lemma readMembers_unfold (fuel : nat) (r acc : list byte) :
  gzip.readMembers fuel r acc =
  match flate_decompress r with
  | Err e => (acc, Some e)
  | Ok (data, n) =>
      let acc := acc ++ data in
      match gzip.io_ReadFull (drop n r) 8 with
      | Err e => (acc, Some (gzip.noEOF e))
      | Ok (buf, r) =>
          if decide (le_Uint32 buf = crc32.ChecksumIEEE data /\
                     le_Uint32 (drop 4 buf)
                     = uint32 (N.of_nat (length data)))
          then
            match gzip.readHeader r with
            | Err e =>
                if decide (e = io_EOF) then (acc, None) else (acc, Some e)
            | Ok r =>
                match fuel with
                | O => (acc, Some io_ErrUnexpectedEOF)
                | S fuel => gzip.readMembers fuel r acc
                end
            end
          else (acc, Some gzip_ErrChecksum)
      end
  end.
Proof. destruct fuel; reflexivity. Qed.

(** One member, as the writer lays it out behind the header, is read
    back whole. *)
Lemma readMembers_member (HF : flate_lawful F) (fuel : nat)
    (x acc : list byte) :
  gzip.readMembers fuel
    (flate_compress x ++ le_PutUint32 (crc32.ChecksumIEEE x)
       ++ le_PutUint32 (uint32 (N.of_nat (length x)))) acc
  = (acc ++ x, None).
Proof.
  rewrite readMembers_unfold, HF. cbv zeta.
  rewrite drop_app_length.
  change 8%nat with
    (length (le_PutUint32 (crc32.ChecksumIEEE x)
               ++ le_PutUint32 (uint32 (N.of_nat (length x))))).
  rewrite <- (app_nil_r (le_PutUint32 _ ++ le_PutUint32 _)) at 1.
  rewrite io_ReadFull_app.
  rewrite decide_True.
  - reflexivity.
  - split.
    + rewrite le_Uint32_PutUint32. apply uint32_small, ChecksumIEEE_lt32.
    + change (drop 4 (le_PutUint32 ?a ++ ?b)) with b.
      rewrite <- (app_nil_r (le_PutUint32 _)), le_Uint32_PutUint32.
      apply uint32_small, uint32_bound.
Qed.

Lemma decompressConfig_compressConfig (HF : flate_lawful F)
    (x : list byte) :
  decompressConfig (compressConfig x).1 = (x, None).
Proof.
  rewrite compressConfig_eq. cbn [fst].
  unfold decompressConfig, gzip.NewReader, gzip.io_ReadAll.
  rewrite readHeader_header.
  by rewrite readMembers_member.
Qed.
End CodecFacts.

Section Fuel.
Context {F : Flate}.

Lemma io_ReadFull_Ok (r : list byte) (n : nat) (buf r' : list byte) :
  gzip.io_ReadFull r n = Ok (buf, r') ->
  length r = (n + length r')%nat.
Proof.
  unfold gzip.io_ReadFull. destruct n as [|n].
  - intros [= <- <-]. reflexivity.
  - destruct r as [|b r]; [discriminate|].
    destruct (Nat.ltb_spec (length (b :: r)) (S n)) as [Hlt|Hge];
      [discriminate|].
    intros [= <- <-]. rewrite length_drop. cbn in *. lia.
Qed.

Lemma readString_Ok (n : nat) (r s r' : list byte) :
  gzip.readString n r = Ok (s, r') -> length r' <= length r.
Proof.
  revert r s. induction n as [|n IH]; intros r s; cbn; [discriminate|].
  destruct r as [|b r]; [discriminate|].
  destruct (decide (b = x00)).
  - intros [= <- <-]. cbn. lia.
  - destruct (gzip.readString n r) as [[s0 r0]|e] eqn:Hr; [|discriminate].
    intros [= <- <-]. apply IH in Hr. cbn. lia.
Qed.

Lemma readExtra_Ok flg d r d' r' :
  gzip.readExtra flg d r = Ok (d', r') -> length r' <= length r.
Proof.
  unfold gzip.readExtra. destruct (gzip.has_flag flg gzip.flagExtra).
  - destruct (gzip.io_ReadFull r 2) as [[l r1]|e] eqn:H1; [|discriminate].
    destruct (gzip.io_ReadFull r1 _) as [[data r2]|e] eqn:H2;
      [|discriminate].
    intros [= <- <-]. apply io_ReadFull_Ok in H1, H2. lia.
  - intros [= <- <-]. lia.
Qed.

Lemma readField_Ok flg f d r d' r' :
  gzip.readField flg f d r = Ok (d', r') -> length r' <= length r.
Proof.
  unfold gzip.readField. destruct (gzip.has_flag flg f).
  - destruct (gzip.readString 512 r) as [[s r1]|e] eqn:H1; [|discriminate].
    intros [= <- <-]. by apply readString_Ok in H1.
  - intros [= <- <-]. lia.
Qed.

Lemma readHdrCrc_Ok flg d r r' :
  gzip.readHdrCrc flg d r = Ok r' -> length r' <= length r.
Proof.
  unfold gzip.readHdrCrc. destruct (gzip.has_flag flg gzip.flagHdrCrc).
  - destruct (gzip.io_ReadFull r 2) as [[l r1]|e] eqn:H1; [|discriminate].
    destruct (decide _); [|discriminate].
    intros [= <-]. apply io_ReadFull_Ok in H1. lia.
  - intros [= <-]. lia.
Qed.

(** A header takes at least its ten fixed bytes. *)
Lemma readHeader_Ok (r r' : list byte) :
  gzip.readHeader r = Ok r' -> length r' + 10 <= length r.
Proof.
  unfold gzip.readHeader.
  destruct (gzip.io_ReadFull r 10) as [[buf r0]|e] eqn:H0; [|discriminate].
  apply io_ReadFull_Ok in H0.
  destruct buf as [|id1 [|id2 [|cm [|flg buf]]]]; try discriminate.
  destruct (decide _); [|discriminate].
  destruct (gzip.readExtra _ _ _) as [[d1 r1]|e] eqn:H1; [|discriminate].
  destruct (gzip.readField _ _ _ _) as [[d2 r2]|e] eqn:H2; [|discriminate].
  destruct (gzip.readField _ _ d2 _) as [[d3 r3]|e] eqn:H3; [|discriminate].
  intros H4. apply readExtra_Ok in H1. apply readField_Ok in H2, H3.
  apply readHdrCrc_Ok in H4. lia.
Qed.

(** The rounds of [readMembers] never run out: with as much fuel as
    there is input the result does not depend on the fuel. *)
Lemma readMembers_fuel (fuel1 fuel2 : nat) (r acc : list byte) :
  length r <= fuel1 -> length r <= fuel2 ->
  gzip.readMembers fuel1 r acc = gzip.readMembers fuel2 r acc.
Proof.
  revert fuel2 r acc.
  induction fuel1 as [|fuel1 IH]; intros fuel2 r acc H1 H2;
    rewrite (readMembers_unfold _ r), (readMembers_unfold fuel2 r).
  all: destruct (flate_decompress r) as [[data n]|e]; [|reflexivity].
  all: cbv zeta.
  all: destruct (gzip.io_ReadFull (drop n r) 8) as [[buf r1]|e] eqn:Hb;
    [|reflexivity].
  all: destruct (decide _); [|reflexivity].
  all: destruct (gzip.readHeader r1) as [r2|e] eqn:Hh; [|reflexivity].
  all: apply io_ReadFull_Ok in Hb; apply readHeader_Ok in Hh.
  all: rewrite length_drop in Hb.
  - lia.
  - destruct fuel2 as [|fuel2]; [lia|]. apply IH; lia.
Qed.

Lemma io_ReadAll_fuel (fuel : nat) (r : list byte) :
  length r <= fuel -> gzip.readMembers fuel r [] = gzip.io_ReadAll r.
Proof. intros Hf. by apply readMembers_fuel. Qed.
End Fuel.

(** ** The instances are lawful *)

Lemma le_Uint_PutUint16 (v : N) :
  (v < 65536)%N -> le_Uint (stored.le_PutUint16 v) = v.
Proof.
  intros Hv. unfold stored.le_PutUint16. cbn [le_Uint].
  rewrite !to_N_byte_of_N.
  rewrite (N.mod_small (v / 256) 256).
  - pose proof (N.div_mod v 256). lia.
  - apply N.Div0.div_lt_upper_bound. lia.
Qed.

Lemma length_block (final : bool) (y : list byte) :
  length (stored.block final y) = (5 + length y)%nat.
Proof. reflexivity. Qed.

(** Reading one stored block. *)
Lemma read_blocks_block (final : bool) (y r' acc : list byte)
    (fuel taken : nat) :
  length y <= stored.maxStoreBlockSize ->
  stored.read_blocks fuel (stored.block final y ++ r') acc taken
  = if final then Ok (acc ++ y, (taken + 5 + length y)%nat)
    else match fuel with
         | O => Err io_ErrUnexpectedEOF
         | S fuel =>
             stored.read_blocks fuel r' (acc ++ y) (taken + 5 + length y)%nat
         end.
Proof.
  intros Hy. unfold stored.maxStoreBlockSize in Hy.
  assert (Hlen : le_Uint (stored.le_PutUint16 (N.of_nat (length y)))
                 = N.of_nat (length y)) by (apply le_Uint_PutUint16; lia).
  assert (Hnlen : le_Uint (stored.le_PutUint16 (65535 - N.of_nat (length y)))
                  = (65535 - N.of_nat (length y))%N)
    by (apply le_Uint_PutUint16; lia).
  unfold stored.block.
  set (l := stored.le_PutUint16 (N.of_nat (length y))) in *.
  set (nl := stored.le_PutUint16 (65535 - N.of_nat (length y))) in *.
  change l with [byte_of_N (N.of_nat (length y));
                 byte_of_N (N.of_nat (length y) / 256)] in *.
  change nl with [byte_of_N (65535 - N.of_nat (length y));
                  byte_of_N ((65535 - N.of_nat (length y)) / 256)] in *.
  cbn [app]. destruct fuel as [|fuel]; cbn [stored.read_blocks].
  all: rewrite Hlen, Hnlen.
  all: replace (N.of_nat (length y) + (65535 - N.of_nat (length y)))%N
         with 65535%N by lia.
  all: rewrite Nat2N.id.
  all: rewrite (proj2 (Nat.ltb_ge _ _)) by (rewrite length_app; lia).
  all: rewrite ?take_app_length, ?drop_app_length.
  all: destruct final; reflexivity.
Qed.

Lemma read_blocks_blocks (fx : nat) :
  forall (x rest acc : list byte) (fr taken : nat),
    length x <= fx ->
    length (stored.blocks fx x) <= fr ->
    stored.read_blocks fr (stored.blocks fx x ++ rest) acc taken
    = Ok (acc ++ x, (taken + length (stored.blocks fx x))%nat).
Proof.
  induction fx as [|fx IH]; intros x rest acc fr taken Hx Hfr.
  - destruct x; [|cbn in Hx; lia].
    cbn [stored.blocks] in *.
    rewrite read_blocks_block by (cbn; lia).
    rewrite length_block. do 2 f_equal. lia.
  - cbn [stored.blocks] in *.
    destruct (Nat.leb_spec (length x) stored.maxStoreBlockSize) as [Hle|Hgt].
    + rewrite read_blocks_block by done.
      rewrite length_block. do 2 f_equal. lia.
    + assert (Htake : length (take stored.maxStoreBlockSize x)
                      = stored.maxStoreBlockSize)
        by (rewrite length_take; lia).
      rewrite length_app, length_block, Htake in Hfr.
      rewrite <- app_assoc, read_blocks_block by lia.
      destruct fr as [|fr]; [lia|].
      rewrite IH.
      * rewrite <- app_assoc, take_drop, length_app, length_block, Htake.
        do 2 f_equal. lia.
      * rewrite length_drop. unfold stored.maxStoreBlockSize in *. lia.
      * lia.
Qed.

(** The stored-block coder reads back what it wrote. *)
Lemma stored_flate_lawful : flate_lawful stored.flate.
Proof.
  intros x rest. cbn [flate_compress flate_decompress stored.flate].
  unfold stored.decompress, stored.compress.
  rewrite read_blocks_blocks; [reflexivity|lia|].
  rewrite length_app. lia.
Qed.

(** The keyring in memory keeps what was set. *)
Lemma memory_keeps_items : keeps_items memory.keyring.
Proof.
  intros cfg w ring w1 item w2.
  cbn [keyring_Open ring_Set ring_Get memory.keyring].
  unfold memory.open, memory.set, memory.get.
  destruct (cfg_AllowedBackends cfg) as [|b l]; [discriminate|].
  intros [= <- <-] [= <-].
  exists b, (<[(b, Key item):=item]> w), item, (<[(b, Key item):=item]> w).
  by rewrite lookup_insert_eq.
Qed.

(** ** The adapter on a keyring *)

Section AdapterFacts.
Context {F : Flate} {Ring World : Type} {K : Keyring Ring World}.
Variable os : list string.

Lemma compressConfig_nonempty (x : list byte) :
  (compressConfig x).2 = None /\ (compressConfig x).1 <> [].
Proof. rewrite compressConfig_eq. split; [reflexivity|discriminate]. Qed.

(** [UpsertConfigToKeyring] once validation and [Open] went through. *)
Lemma run_Upsert_opened b x w ring w1 :
  ValidateBackend os b = None ->
  keyring_Open (getKeyringConfig b) w = (Ok ring, w1) ->
  run (UpsertConfigToKeyring os b x) w =
  if (MaxWindowsByteSize <? length (compressConfig x).1)%nat
     && bool_decide (b = WinCredBackend)
  then (Some (tooLarge (length (compressConfig x).1)), w1,
        [CallOpen (getKeyringConfig b)])
  else ((ring_Set ring (credentialItem (compressConfig x).1) w1).1,
        (ring_Set ring (credentialItem (compressConfig x).1) w1).2,
        [CallOpen (getKeyringConfig b);
         CallSet ring (credentialItem (compressConfig x).1)]).
Proof.
  intros Hv Ho. unfold UpsertConfigToKeyring. rewrite Hv.
  cbn [run]. rewrite Ho.
  rewrite compressConfig_eq. cbn [fst].
  destruct ((MaxWindowsByteSize <? _)%nat && _); [reflexivity|].
  cbn [run]. unfold credentialItem.
  by destruct (ring_Set _ _ _) as [e w2].
Qed.

Lemma run_Get_opened b w ring w1 :
  ValidateBackend os b = None ->
  keyring_Open (getKeyringConfig b) w = (Ok ring, w1) ->
  run (GetConfigFromKeyring os b) w =
  let calls := [CallOpen (getKeyringConfig b); CallGet ring ItemKey] in
  let after credentials :=
    if (length credentials =? 0)%nat then (credentials, None)
    else match decompressConfig credentials with
         | (_, Some err) => ([], Some err)
         | (creds, None) => (creds, None)
         end in
  match ring_Get ring ItemKey w1 with
  | (Err err, w2) =>
      if decide (err = ErrKeyNotFound) then (after [], w2, calls)
      else (([], Some err), w2, calls)
  | (Ok i, w2) => (after (Data i), w2, calls)
  end.
Proof.
  intros Hv Ho. unfold GetConfigFromKeyring. rewrite Hv.
  cbn [run]. rewrite Ho. cbn [run].
  destruct (ring_Get ring ItemKey w1) as [[i|err] w2]; cbv zeta.
  - destruct (length (Data i) =? 0)%nat; [reflexivity|].
    by destruct (decompressConfig (Data i)) as [creds [err|]].
  - by destruct (decide (err = ErrKeyNotFound)).
Qed.
End AdapterFacts.

Section AfterUpsert.
Context {F : Flate} {Ring World : Type} {K : Keyring Ring World}.
Variable os : list string.

Lemma run_invalid_Upsert b e x w :
  ValidateBackend os b = Some e ->
  run (UpsertConfigToKeyring os b x) w = (Some e, w, []).
Proof. intros Hv. unfold UpsertConfigToKeyring. by rewrite Hv. Qed.

Lemma run_Upsert_not_opened b e x w w1 :
  ValidateBackend os b = None ->
  keyring_Open (getKeyringConfig b) w = (Err e, w1) ->
  run (UpsertConfigToKeyring os b x) w
  = (Some e, w1, [CallOpen (getKeyringConfig b)]).
Proof.
  intros Hv Ho. unfold UpsertConfigToKeyring. rewrite Hv.
  cbn [run]. by rewrite Ho.
Qed.

(** After an upsert that succeeded, on a keyring that keeps what was set,
    the read gives the credentials back. *)
Lemma run_Get_after_Upsert (HF : flate_lawful F) (HK : keeps_items K)
    b x w :
  result_of (run (UpsertConfigToKeyring os b x) w) = None ->
  result_of (run (GetConfigFromKeyring os b)
                 (world_of (run (UpsertConfigToKeyring (Ring:=Ring) os b x) w)))
  = (x, None).
Proof.
  destruct (ValidateBackend os b) as [e|] eqn:Hv.
  { by rewrite (run_invalid_Upsert b e x w Hv). }
  destruct (keyring_Open (getKeyringConfig b) w) as [[ring|e] w1] eqn:Hopen.
  2:{ by rewrite (run_Upsert_not_opened b e x w w1 Hv Hopen). }
  rewrite (run_Upsert_opened os b x w ring w1 Hv Hopen).
  destruct (_ && _); [discriminate|].
  unfold result_of, world_of. cbn [fst snd].
  destruct (ring_Set ring _ w1) as [e w2] eqn:Hset. cbn [fst snd].
  intros ->.
  destruct (HK _ _ _ _ _ _ Hopen Hset)
    as (ring' & w3 & item' & w4 & Ho' & Hg & Hd).
  rewrite (run_Get_opened os b w2 ring' w3 Hv Ho').
  cbn [Key credentialItem] in Hg. rewrite Hg. cbv zeta. cbn [fst].
  rewrite Hd. cbn [Data credentialItem].
  destruct (compressConfig_nonempty x) as [_ Hne].
  destruct (compressConfig x).1 as [|c0 c] eqn:Hc; [done|].
  cbn [length Nat.eqb]. rewrite <- Hc.
  by rewrite decompressConfig_compressConfig.
Qed.

(** Every [Set] that an upsert makes carries the compressed
    credentials. *)
Lemma calls_Upsert_Set b x w ring item :
  CallSet ring item ∈ calls_of (run (UpsertConfigToKeyring os b x) w) ->
  item = credentialItem (compressConfig x).1.
Proof.
  destruct (ValidateBackend os b) as [e|] eqn:Hv.
  { rewrite (run_invalid_Upsert b e x w Hv). cbn. by intros ?%elem_of_nil. }
  destruct (keyring_Open (getKeyringConfig b) w) as [[ring0|e] w1] eqn:Hopen.
  2:{ rewrite (run_Upsert_not_opened b e x w w1 Hv Hopen). cbn.
      rewrite list_elem_of_singleton. discriminate. }
  rewrite (run_Upsert_opened os b x w ring0 w1 Hv Hopen).
  destruct (_ && _); cbn.
  - rewrite list_elem_of_singleton. discriminate.
  - rewrite !elem_of_cons, elem_of_nil.
    intros [H|[H|[]]]; [discriminate|]. by injection H.
Qed.
End AfterUpsert.


(** * The claims *)

(** C1.  On a keyring that keeps what was set, for a valid and available
    backend, when [UpsertConfigToKeyring] of [x] succeeds, the
    [GetConfigFromKeyring] that follows it succeeds and returns [x]. *)
Theorem upsert_get_roundtrip {F : Flate} {Ring World : Type}
    {K : Keyring Ring World} (HF : flate_lawful F) (HK : keeps_items K)
    (os : list string) (b : string) (x : list byte) (w : World) :
  b ∈ AllowedBackends -> b ∈ os ->
  result_of (run (UpsertConfigToKeyring os b x) w) = None ->
  result_of (run (GetConfigFromKeyring os b)
                 (world_of (run (UpsertConfigToKeyring (Ring:=Ring) os b x) w)))
  = (x, None).
Proof.
  intros _ _. apply (run_Get_after_Upsert os HF HK).
Qed.

Lemma upsert_get_roundtrip_witness :
  result_of
    (run (K:=memory.keyring)
       (GetConfigFromKeyring (F:=stored.flate) [KeychainBackend]
          KeychainBackend)
       (world_of
          (run (K:=memory.keyring)
             (UpsertConfigToKeyring (F:=stored.flate) [KeychainBackend]
                KeychainBackend [x68; x69]) ∅)))
  = ([x68; x69], None).
Proof.
  apply (upsert_get_roundtrip stored_flate_lawful memory_keeps_items).
  - apply (bool_decide_unpack _). vm_compute. exact I.
  - apply (bool_decide_unpack _). vm_compute. exact I.
  - vm_compute. reflexivity.
Defined.

(** C2.  For every byte sequence, the empty one included, [compressConfig]
    succeeds and [decompressConfig] of its output succeeds and returns the
    input. *)
Theorem compress_decompress_roundtrip {F : Flate} (HF : flate_lawful F)
    (x : list byte) :
  exists compressed,
    compressConfig x = (compressed, None) /\
    decompressConfig compressed = (x, None).
Proof.
  exists (compressConfig x).1. split.
  - by rewrite compressConfig_eq.
  - by apply decompressConfig_compressConfig.
Qed.

Lemma compress_decompress_roundtrip_witness :
  (exists c, @compressConfig stored.flate [] = (c, None) /\
             @decompressConfig stored.flate c = ([], None)) /\
  (exists c, @compressConfig stored.flate [x68; x69] = (c, None) /\
             @decompressConfig stored.flate c = ([x68; x69], None)).
Proof.
  split.
  - exact (compress_decompress_roundtrip stored_flate_lawful []).
  - exact (compress_decompress_roundtrip stored_flate_lawful [x68; x69]).
Defined.

(** C3.  [ValidateBackend] answers the invalid-backend error for the empty
    string and for every string outside the allow-list, the
    backend-unavailable error for an allowed backend that the OS does not
    report, and no error for an allowed backend that the OS reports. *)
Theorem ValidateBackend_cases (os : list string) (b : string) :
  (b = "" \/ b ∉ AllowedBackends ->
   ValidateBackend os b = Some ErrKeyringInvalid) /\
  (b ∈ AllowedBackends -> b ∉ os ->
   ValidateBackend os b = Some ErrKeyringUnavailable) /\
  (b ∈ AllowedBackends -> b ∈ os -> ValidateBackend os b = None).
Proof.
  split; [|split].
  - intros Hb. rewrite ValidateBackend_unfold.
    destruct (decide (b = "")) as [He|He]; [reflexivity|].
    destruct Hb as [Hb|Hb]; [done|].
    by rewrite bool_decide_eq_false_2.
  - intros Ha Ho. rewrite ValidateBackend_unfold.
    destruct (decide (b = "")) as [He|He].
    { by apply AllowedBackends_nonempty in Ha. }
    rewrite bool_decide_eq_true_2 by done.
    rewrite bool_decide_eq_false_2; [reflexivity|].
    rewrite elem_of_AvailableBackends. tauto.
  - intros Ha Ho. by apply ValidateBackend_None.
Qed.

Lemma ValidateBackend_cases_witness :
  ValidateBackend [KeychainBackend; "file"] "" = Some ErrKeyringInvalid /\
  ValidateBackend [KeychainBackend; "file"] "file" = Some ErrKeyringInvalid /\
  ValidateBackend [KeychainBackend; "file"] PassBackend
  = Some ErrKeyringUnavailable /\
  ValidateBackend [KeychainBackend; "file"] KeychainBackend = None.
Proof.
  split; [|split; [|split]].
  - apply (ValidateBackend_cases [KeychainBackend; "file"] ""). by left.
  - apply (ValidateBackend_cases [KeychainBackend; "file"] "file"). right.
    apply (bool_decide_unpack _). vm_compute. exact I.
  - apply (ValidateBackend_cases [KeychainBackend; "file"] PassBackend);
      apply (bool_decide_unpack _); vm_compute; exact I.
  - apply (ValidateBackend_cases [KeychainBackend; "file"] KeychainBackend);
      apply (bool_decide_unpack _); vm_compute; exact I.
Defined.

(** C4.  For the Windows Credential Manager backend and a compressed input
    of more than 2500 bytes, [UpsertConfigToKeyring] fails and makes no
    [Set] call; once the backend is valid and available and [Open] went
    through, the failure is the size-limit error that names the actual and
    the maximum size, and the world is as [Open] left it.  For a valid and
    available backend, once [Open] went through, a compressed input of 2500
    bytes or fewer goes on to [Set], and so does every input, whatever its
    compressed length, for a backend other than the Windows Credential
    Manager. *)
Theorem upsert_size_limit {F : Flate} {Ring World : Type}
    {K : Keyring Ring World} (os : list string) (b : string)
    (x : list byte) (w : World) :
  let compressed := (compressConfig x).1 in
  let r := run (UpsertConfigToKeyring os b x) w in
  (b = WinCredBackend -> MaxWindowsByteSize < length compressed ->
   result_of r <> None /\
   (forall ring item, CallSet ring item ∉ calls_of r) /\
   (b ∈ os ->
    forall ring w1,
      keyring_Open (getKeyringConfig b) w = (Ok ring, w1) ->
      r = (Some (tooLarge (length compressed)), w1,
           [CallOpen (getKeyringConfig b)]))) /\
  (b ∈ AllowedBackends -> b ∈ os ->
   forall ring w1,
     keyring_Open (getKeyringConfig b) w = (Ok ring, w1) ->
     b <> WinCredBackend \/ length compressed <= MaxWindowsByteSize ->
     r = ((ring_Set ring (credentialItem compressed) w1).1,
          (ring_Set ring (credentialItem compressed) w1).2,
          [CallOpen (getKeyringConfig b);
           CallSet ring (credentialItem compressed)])).
Proof.
  intros compressed r. split.
  - intros -> Hlt.
    assert (Hopened : forall ring w1,
      keyring_Open (getKeyringConfig WinCredBackend) w = (Ok ring, w1) ->
      ValidateBackend os WinCredBackend = None ->
      r = (Some (tooLarge (length compressed)), w1,
           [CallOpen (getKeyringConfig WinCredBackend)])).
    { intros ring w1 Hopen Hv. unfold r.
      rewrite (run_Upsert_opened os _ x w ring w1 Hv Hopen).
      fold compressed. rewrite (proj2 (Nat.ltb_lt _ _)) by done.
      by rewrite bool_decide_eq_true_2. }
    split; [|split].
    + destruct (ValidateBackend os WinCredBackend) as [e|] eqn:Hv.
      { unfold r. by rewrite (run_invalid_Upsert os _ e x w Hv). }
      destruct (keyring_Open (getKeyringConfig WinCredBackend) w)
        as [[ring|e] w1] eqn:Hopen.
      * by rewrite (Hopened ring w1).
      * unfold r. by rewrite (run_Upsert_not_opened os _ e x w w1 Hv Hopen).
    + intros ring item.
      destruct (ValidateBackend os WinCredBackend) as [e|] eqn:Hv.
      { unfold r. rewrite (run_invalid_Upsert os _ e x w Hv).
        apply not_elem_of_nil. }
      destruct (keyring_Open (getKeyringConfig WinCredBackend) w)
        as [[ring0|e] w1] eqn:Hopen.
      * rewrite (Hopened ring0 w1) by done. cbn.
        rewrite list_elem_of_singleton. discriminate.
      * unfold r. rewrite (run_Upsert_not_opened os _ e x w w1 Hv Hopen).
        cbn. rewrite list_elem_of_singleton. discriminate.
    + intros Ho ring w1 Hopen. apply (Hopened ring w1 Hopen).
      apply ValidateBackend_None. split; [|done].
      apply elem_of_AllowedBackends. tauto.
  - intros Ha Ho ring w1 Hopen Hcase.
    assert (Hv : ValidateBackend os b = None) by by apply ValidateBackend_None.
    unfold r. rewrite (run_Upsert_opened os b x w ring w1 Hv Hopen).
    fold compressed.
    destruct Hcase as [Hne|Hle].
    + rewrite (bool_decide_eq_false_2 _ Hne). by rewrite andb_false_r.
    + by rewrite (proj2 (Nat.ltb_ge _ _)) by done.
Qed.

Example tooLarge_message :
  tooLarge 2501
  = Errorf
      "credentials are too large for Windows Credential Manager: 2501 bytes (max 2500)".
Proof. reflexivity. Qed.

Lemma length_compress_2478 :
  length (compressConfig (F:=stored.flate) (replicate 2478 x00)).1 = 2501.
Proof. vm_compute. reflexivity. Qed.

Lemma length_compress_2477 :
  length (compressConfig (F:=stored.flate) (replicate 2477 x00)).1 = 2500.
Proof. vm_compute. reflexivity. Qed.

Lemma upsert_size_limit_witness :
  (run (K:=memory.keyring)
     (UpsertConfigToKeyring (F:=stored.flate) [WinCredBackend] WinCredBackend
        (replicate 2478 x00)) ∅
   = (Some (tooLarge 2501), ∅, [CallOpen (getKeyringConfig WinCredBackend)]))
  /\
  (run (K:=memory.keyring)
     (UpsertConfigToKeyring (F:=stored.flate) [WinCredBackend] WinCredBackend
        (replicate 2477 x00)) ∅).2
  = [CallOpen (getKeyringConfig WinCredBackend);
     CallSet WinCredBackend
       (credentialItem
          (compressConfig (F:=stored.flate) (replicate 2477 x00)).1)] /\
  (run (K:=memory.keyring)
     (UpsertConfigToKeyring (F:=stored.flate) [KeychainBackend]
        KeychainBackend (replicate 2478 x00)) ∅).2
  = [CallOpen (getKeyringConfig KeychainBackend);
     CallSet KeychainBackend
       (credentialItem
          (compressConfig (F:=stored.flate) (replicate 2478 x00)).1)].
Proof.
  split; [|split].
  - destruct (upsert_size_limit (F:=stored.flate) (K:=memory.keyring)
                [WinCredBackend] WinCredBackend (replicate 2478 x00) ∅)
      as [H _].
    destruct H as (_ & _ & H).
    + reflexivity.
    + rewrite length_compress_2478. unfold MaxWindowsByteSize. lia.
    + rewrite <- length_compress_2478.
      apply (H ltac:(apply list_elem_of_here) WinCredBackend ∅).
      reflexivity.
  - destruct (upsert_size_limit (F:=stored.flate) (K:=memory.keyring)
                [WinCredBackend] WinCredBackend (replicate 2477 x00) ∅)
      as [_ H].
    rewrite (H ltac:(apply list_elem_of_here) ltac:(apply list_elem_of_here)
               WinCredBackend ∅).
    + reflexivity.
    + reflexivity.
    + right. rewrite length_compress_2477. unfold MaxWindowsByteSize. lia.
  - destruct (upsert_size_limit (F:=stored.flate) (K:=memory.keyring)
                [KeychainBackend] KeychainBackend (replicate 2478 x00) ∅)
      as [_ H].
    rewrite (H ltac:(apply list_elem_of_further, list_elem_of_here)
               ltac:(apply list_elem_of_here) KeychainBackend ∅).
    + reflexivity.
    + reflexivity.
    + left. discriminate.
Defined.

(** The report of the keyring package names no backend twice, whatever the
    build supports. *)
Lemma keyring_report_NoDup (supported : string -> bool) :
  NoDup (keyring_report supported).
Proof.
  apply NoDup_filter. apply (bool_decide_unpack _). vm_compute. exact I.
Qed.

(** C5.  For every OS report, [AvailableBackends] returns the reported
    identifiers that are in the allow-list, in the order of the report, and
    nothing outside the allow-list; for a report that names no backend
    twice the result has no duplicates, and so it has none for every report
    of the keyring package, whatever the build supports. *)
Theorem AvailableBackends_spec (os : list string) :
  AvailableBackends os = filter (fun b => b ∈ AllowedBackends) os /\
  (forall b, b ∈ AvailableBackends os -> b ∈ AllowedBackends) /\
  (NoDup os -> NoDup (AvailableBackends os)) /\
  (forall supported, NoDup (AvailableBackends (keyring_report supported))).
Proof.
  assert (Hnd : forall l, NoDup l -> NoDup (AvailableBackends l)).
  { intros l Hl. rewrite AvailableBackends_filter. by apply NoDup_filter. }
  split; [apply AvailableBackends_filter|split; [|split]].
  - intros b Hb. by apply elem_of_AvailableBackends in Hb as [? _].
  - apply Hnd.
  - intros supported. apply Hnd, keyring_report_NoDup.
Qed.

Lemma AvailableBackends_spec_witness :
  AvailableBackends (keyring_report (fun _ => true))
  = [WinCredBackend; KeychainBackend; SecretServiceBackend; PassBackend] /\
  NoDup (AvailableBackends (keyring_report (fun _ => true))).
Proof.
  destruct (AvailableBackends_spec
              (keyring_report (fun _ => true)))
    as (Heq & _ & Hnd & _).
  split.
  - rewrite Heq. vm_compute. reflexivity.
  - apply Hnd. apply keyring_report_NoDup.
Defined.

(** C6.  For a valid and available backend whose store has no item under
    the fixed key ([Open] succeeds and [Get] answers the not-found error),
    [GetConfigFromKeyring] returns a zero-length result and no error. *)
Theorem get_not_found {F : Flate} {Ring World : Type}
    {K : Keyring Ring World} (os : list string) (b : string)
    (w : World) (ring : Ring) (w1 w2 : World) :
  b ∈ AllowedBackends -> b ∈ os ->
  keyring_Open (getKeyringConfig b) w = (Ok ring, w1) ->
  ring_Get ring ItemKey w1 = (Err ErrKeyNotFound, w2) ->
  run (GetConfigFromKeyring os b) w
  = (([], None), w2, [CallOpen (getKeyringConfig b); CallGet ring ItemKey]).
Proof.
  intros Ha Ho Hopen Hget.
  assert (Hv : ValidateBackend os b = None) by by apply ValidateBackend_None.
  rewrite (run_Get_opened os b w ring w1 Hv Hopen), Hget.
  reflexivity.
Qed.

Lemma get_not_found_witness :
  run (K:=memory.keyring)
    (GetConfigFromKeyring (F:=stored.flate) [PassBackend] PassBackend) ∅
  = (([], None), ∅,
     [CallOpen (getKeyringConfig PassBackend); CallGet PassBackend ItemKey]).
Proof.
  apply (get_not_found (F:=stored.flate) (K:=memory.keyring) [PassBackend]
           PassBackend ∅ PassBackend ∅ ∅).
  - apply (bool_decide_unpack _). vm_compute. exact I.
  - apply (bool_decide_unpack _). vm_compute. exact I.
  - reflexivity.
  - reflexivity.
Defined.

(** C7.  For a valid and available backend whose store has no item under
    the fixed key ([Open] succeeds and [Remove] answers the not-found
    error), [RemoveConfigFromKeyring] returns no error. *)
Theorem remove_not_found {F : Flate} {Ring World : Type}
    {K : Keyring Ring World} (os : list string) (b : string)
    (w : World) (ring : Ring) (w1 w2 : World) :
  b ∈ AllowedBackends -> b ∈ os ->
  keyring_Open (getKeyringConfig b) w = (Ok ring, w1) ->
  ring_Remove ring ItemKey w1 = (Some ErrKeyNotFound, w2) ->
  run (RemoveConfigFromKeyring os b) w
  = (None, w2, [CallOpen (getKeyringConfig b); CallRemove ring ItemKey]).
Proof.
  intros Ha Ho Hopen Hrm.
  assert (Hv : ValidateBackend os b = None) by by apply ValidateBackend_None.
  unfold RemoveConfigFromKeyring. rewrite Hv.
  cbn [run]. rewrite Hopen. cbn [run]. rewrite Hrm.
  reflexivity.
Qed.

Lemma remove_not_found_witness :
  run (K:=memory.keyring)
    (RemoveConfigFromKeyring (Ring:=memory.Ring) [SecretServiceBackend]
       SecretServiceBackend) ∅
  = (None, ∅,
     [CallOpen (getKeyringConfig SecretServiceBackend);
      CallRemove SecretServiceBackend ItemKey]).
Proof.
  apply (remove_not_found (F:=stored.flate) (K:=memory.keyring)
           [SecretServiceBackend] SecretServiceBackend ∅
           SecretServiceBackend ∅ ∅).
  - apply (bool_decide_unpack _). vm_compute. exact I.
  - apply (bool_decide_unpack _). vm_compute. exact I.
  - reflexivity.
  - reflexivity.
Defined.

(** C8.  For a backend that fails validation, each of
    [UpsertConfigToKeyring], [GetConfigFromKeyring] and
    [RemoveConfigFromKeyring] is the program that returns the validation
    error and calls nothing; run on any keyring it makes no call and leaves
    the world as it was. *)
Theorem invalid_backend_no_call {F : Flate} {Ring World : Type}
    {K : Keyring Ring World} (os : list string) (b : string) (e : error)
    (x : list byte) (w : World) :
  ValidateBackend os b = Some e ->
  (UpsertConfigToKeyring (Ring:=Ring) os b x = Ret (Some e) /\
   GetConfigFromKeyring (Ring:=Ring) os b = Ret ([], Some e) /\
   RemoveConfigFromKeyring (Ring:=Ring) os b = Ret (Some e)) /\
  (run (UpsertConfigToKeyring os b x) w = (Some e, w, []) /\
   run (GetConfigFromKeyring os b) w = (([], Some e), w, []) /\
   run (RemoveConfigFromKeyring os b) w = (Some e, w, [])).
Proof.
  intros Hv.
  unfold UpsertConfigToKeyring, GetConfigFromKeyring, RemoveConfigFromKeyring.
  rewrite Hv. repeat split.
Qed.

Lemma invalid_backend_no_call_witness :
  run (K:=memory.keyring)
    (UpsertConfigToKeyring (F:=stored.flate) [KeychainBackend] "file"
       [x68; x69]) ∅
  = (Some ErrKeyringInvalid, ∅, []) /\
  run (K:=memory.keyring)
    (GetConfigFromKeyring (F:=stored.flate) [KeychainBackend] PassBackend) ∅
  = (([], Some ErrKeyringUnavailable), ∅, []) /\
  run (K:=memory.keyring)
    (RemoveConfigFromKeyring (Ring:=memory.Ring) [KeychainBackend] "") ∅
  = (Some ErrKeyringInvalid, ∅, []).
Proof.
  split; [|split].
  - apply (invalid_backend_no_call (F:=stored.flate) (K:=memory.keyring)
             [KeychainBackend] "file" ErrKeyringInvalid [x68; x69] ∅).
    reflexivity.
  - apply (invalid_backend_no_call (F:=stored.flate) (K:=memory.keyring)
             [KeychainBackend] PassBackend ErrKeyringUnavailable [] ∅).
    reflexivity.
  - apply (invalid_backend_no_call (F:=stored.flate) (K:=memory.keyring)
             [KeychainBackend] "" ErrKeyringInvalid [] ∅).
    reflexivity.
Defined.

(** C9.  For a valid and available backend whose store holds, under the
    fixed key, a non-empty value that is not a well-formed gzip stream,
    [GetConfigFromKeyring] returns an error: the one of the gzip reader. *)
Theorem get_corrupt {F : Flate} {Ring World : Type}
    {K : Keyring Ring World} (os : list string) (b : string)
    (w : World) (ring : Ring) (w1 : World) (item : Item) (w2 : World) :
  b ∈ AllowedBackends -> b ∈ os ->
  keyring_Open (getKeyringConfig b) w = (Ok ring, w1) ->
  ring_Get ring ItemKey w1 = (Ok item, w2) ->
  Data item <> [] ->
  ~ gzip_well_formed (Data item) ->
  exists err,
    (decompressConfig (Data item)).2 = Some err /\
    result_of (run (GetConfigFromKeyring os b) w) = ([], Some err).
Proof.
  intros Ha Ho Hopen Hget Hne Hbad.
  assert (Hv : ValidateBackend os b = None) by by apply ValidateBackend_None.
  rewrite (run_Get_opened os b w ring w1 Hv Hopen), Hget. cbv zeta.
  unfold result_of. cbn [fst].
  destruct (Data item) as [|d0 d] eqn:Hd; [done|].
  cbn [length Nat.eqb].
  destruct (decompressConfig (d0 :: d)) as [creds [err|]] eqn:Hdec.
  - by exists err.
  - exfalso. apply Hbad. unfold gzip_well_formed.
    unfold decompressConfig in Hdec.
    destruct (gzip.NewReader (d0 :: d)) as [r|e]; [|discriminate].
    destruct (gzip.io_ReadAll r) as [out [e|]] eqn:Hall; [discriminate|].
    by exists r, out.
Qed.

Lemma get_corrupt_witness :
  exists err,
    (decompressConfig (F:=stored.flate) [x68; x69]).2 = Some err /\
    result_of
      (run (K:=memory.keyring)
         (GetConfigFromKeyring (F:=stored.flate) [KeychainBackend]
            KeychainBackend)
         {[ (KeychainBackend, ItemKey) := credentialItem [x68; x69] ]})
    = ([], Some err).
Proof.
  apply (get_corrupt (F:=stored.flate) (K:=memory.keyring) [KeychainBackend]
           KeychainBackend
           {[ (KeychainBackend, ItemKey) := credentialItem [x68; x69] ]}
           KeychainBackend
           {[ (KeychainBackend, ItemKey) := credentialItem [x68; x69] ]}
           (credentialItem [x68; x69])
           {[ (KeychainBackend, ItemKey) := credentialItem [x68; x69] ]}).
  - apply (bool_decide_unpack _). vm_compute. exact I.
  - apply (bool_decide_unpack _). vm_compute. exact I.
  - reflexivity.
  - cbn [ring_Get memory.keyring]. unfold memory.get.
    rewrite lookup_singleton_eq. reflexivity.
  - discriminate.
  - intros (r & out & [=] & _).
Defined.

(** C10, as the claim states its last part: empty credentials are stored
    as a non-empty item, and the read that follows returns a zero-length
    result although the item is there. *)
Lemma zero_length_result_with_item :
  let w1 :=
    world_of
      (run (K:=memory.keyring)
         (UpsertConfigToKeyring (F:=stored.flate) [KeychainBackend]
            KeychainBackend []) ∅) in
  result_of
    (run (K:=memory.keyring)
       (UpsertConfigToKeyring (F:=stored.flate) [KeychainBackend]
          KeychainBackend []) ∅) = None /\
  (exists item, w1 !! (KeychainBackend, ItemKey) = Some item /\
                Data item <> []) /\
  result_of
    (run (K:=memory.keyring)
       (GetConfigFromKeyring (F:=stored.flate) [KeychainBackend]
          KeychainBackend) w1) = ([], None).
Proof.
  cbv zeta. split; [|split].
  - vm_compute. reflexivity.
  - exists (credentialItem (compressConfig (F:=stored.flate) []).1).
    split.
    + vm_compute; reflexivity.
    + apply compressConfig_nonempty.
  - vm_compute. reflexivity.
Qed.

(** C10, amended.  [compressConfig] succeeds with a non-empty output for
    every input, the empty one included; so every item that
    [UpsertConfigToKeyring] hands to [Set] has non-empty data; and on a
    keyring that keeps what was set, the read after an upsert that
    succeeded returns the credentials written, a zero-length result exactly
    when those were empty. *)
Theorem stored_blob_nonempty {F : Flate} {Ring World : Type}
    {K : Keyring Ring World} (HF : flate_lawful F) (HK : keeps_items K)
    (os : list string) (b : string) (x : list byte) (w : World) :
  ((compressConfig x).2 = None /\ (compressConfig x).1 <> []) /\
  (forall ring item,
     CallSet ring item ∈ calls_of (run (UpsertConfigToKeyring os b x) w) ->
     Data item <> []) /\
  (result_of (run (UpsertConfigToKeyring os b x) w) = None ->
   result_of
     (run (GetConfigFromKeyring os b)
        (world_of (run (UpsertConfigToKeyring (Ring:=Ring) os b x) w)))
   = (x, None) /\
   ((result_of
       (run (GetConfigFromKeyring os b)
          (world_of (run (UpsertConfigToKeyring (Ring:=Ring) os b x) w)))).1
    = [] <-> x = [])).
Proof.
  split; [apply compressConfig_nonempty|split].
  - intros ring item Hin. apply calls_Upsert_Set in Hin as ->.
    apply compressConfig_nonempty.
  - intros Hok. by rewrite (run_Get_after_Upsert os HF HK b x w Hok).
Qed.

Lemma stored_blob_nonempty_witness :
  (result_of
     (run (K:=memory.keyring)
        (GetConfigFromKeyring (F:=stored.flate) [KeychainBackend]
           KeychainBackend)
        (world_of
           (run (K:=memory.keyring)
              (UpsertConfigToKeyring (F:=stored.flate) [KeychainBackend]
                 KeychainBackend [x68; x69]) ∅)))).1 = []
  <-> [x68; x69] = [].
Proof.
  destruct (stored_blob_nonempty (F:=stored.flate) (K:=memory.keyring)
              stored_flate_lawful memory_keeps_items [KeychainBackend]
              KeychainBackend [x68; x69] ∅) as (_ & _ & H).
  destruct H as [_ H]; [vm_compute; reflexivity|exact H].
Defined.

(** * Further properties *)

(** ** Validation *)

(** X1.  [IsBackendAvailable] is true exactly for the members of
    [AvailableBackends], that is for the allowed backends that the OS
    reports; the empty string is never available, whatever the OS
    reports. *)
Theorem IsBackendAvailable_spec (os : list string) (b : string) :
  (IsBackendAvailable os b = true <-> b ∈ AvailableBackends os) /\
  (IsBackendAvailable os b = true <-> b ∈ AllowedBackends /\ b ∈ os) /\
  IsBackendAvailable os "" = false.
Proof.
  assert (H : IsBackendAvailable os b = true <-> b ∈ AvailableBackends os).
  { unfold IsBackendAvailable. destruct (decide (b = "")) as [->|Hb].
    - split; [discriminate|]. intros [Ha _]%elem_of_AvailableBackends.
      by apply AllowedBackends_nonempty in Ha.
    - rewrite range_until_elem_of. apply bool_decide_eq_true. }
  split; [exact H|split].
  - rewrite H. apply elem_of_AvailableBackends.
  - reflexivity.
Qed.

Lemma IsBackendAvailable_spec_witness :
  IsBackendAvailable [KeychainBackend; "file"] KeychainBackend = true.
Proof.
  destruct (IsBackendAvailable_spec [KeychainBackend; "file"]
              KeychainBackend) as (_ & H & _).
  apply H. split; apply (bool_decide_unpack _); vm_compute; exact I.
Defined.

(** X2.  [ValidateBackend] accepts exactly the backends for which
    [IsBackendAvailable] is true, and its error says what is wrong: the
    invalid-backend error exactly for strings outside the allow-list, the
    unavailable error exactly for allowed backends that the OS does not
    report; it returns no other error. *)
Theorem ValidateBackend_errors (os : list string) (b : string) :
  (ValidateBackend os b = None <-> IsBackendAvailable os b = true) /\
  (ValidateBackend os b = Some ErrKeyringInvalid <-> b ∉ AllowedBackends) /\
  (ValidateBackend os b = Some ErrKeyringUnavailable <->
   b ∈ AllowedBackends /\ b ∉ os) /\
  (forall e, ValidateBackend os b = Some e ->
             e = ErrKeyringInvalid \/ e = ErrKeyringUnavailable).
Proof.
  assert (Hav : IsBackendAvailable os b = true <->
                b ∈ AllowedBackends /\ b ∈ os).
  { unfold IsBackendAvailable. destruct (decide (b = "")) as [->|Hb].
    - split; [discriminate|]. intros [Ha _].
      by apply AllowedBackends_nonempty in Ha.
    - rewrite range_until_elem_of, bool_decide_eq_true.
      apply elem_of_AvailableBackends. }
  split; [by rewrite Hav, ValidateBackend_None|].
  rewrite ValidateBackend_unfold.
  destruct (decide (b = "")) as [->|Hb].
  { assert (Hn : "" ∉ AllowedBackends)
      by (intros Ha; by apply AllowedBackends_nonempty in Ha).
    split; [tauto|]. split; [split; [discriminate|tauto]|].
    intros e [= <-]. by left. }
  destruct (bool_decide_reflect (b ∈ AllowedBackends)) as [Ha|Ha].
  - destruct (bool_decide_reflect (b ∈ AvailableBackends os)) as [Hv|Hv];
      rewrite elem_of_AvailableBackends in Hv.
    + split; [split; [discriminate|tauto]|].
      split; [split; [discriminate|tauto]|]. discriminate.
    + split; [split; [discriminate|tauto]|].
      split; [split; [tauto|reflexivity]|]. intros e [= <-]. by right.
  - split; [tauto|]. split; [split; [discriminate|tauto]|].
    intros e [= <-]. by left.
Qed.

Lemma ValidateBackend_errors_witness :
  ValidateBackend ["file"] PassBackend = Some ErrKeyringUnavailable.
Proof.
  destruct (ValidateBackend_errors ["file"] PassBackend) as (_ & _ & H & _).
  apply H. split; apply (bool_decide_unpack _); vm_compute; exact I.
Defined.

(** ** The adapter on any keyring *)

Section MoreAdapterFacts.
Context {F : Flate} {Ring World : Type} {K : Keyring Ring World}.
Variable os : list string.

Lemma run_invalid_Get b e w :
  ValidateBackend os b = Some e ->
  run (GetConfigFromKeyring os b) w = (([], Some e), w, []).
Proof. intros Hv. unfold GetConfigFromKeyring. by rewrite Hv. Qed.

Lemma run_invalid_Remove b e w :
  ValidateBackend os b = Some e ->
  run (RemoveConfigFromKeyring (Ring:=Ring) os b) w = (Some e, w, []).
Proof. intros Hv. unfold RemoveConfigFromKeyring. by rewrite Hv. Qed.

Lemma run_Get_not_opened b e w w1 :
  ValidateBackend os b = None ->
  keyring_Open (getKeyringConfig b) w = (Err e, w1) ->
  run (GetConfigFromKeyring os b) w
  = (([], Some e), w1, [CallOpen (getKeyringConfig b)]).
Proof.
  intros Hv Ho. unfold GetConfigFromKeyring. rewrite Hv.
  cbn [run]. by rewrite Ho.
Qed.

Lemma run_Remove_not_opened b e w w1 :
  ValidateBackend os b = None ->
  keyring_Open (getKeyringConfig b) w = (Err e, w1) ->
  run (RemoveConfigFromKeyring os b) w
  = (Some e, w1, [CallOpen (getKeyringConfig b)]).
Proof.
  intros Hv Ho. unfold RemoveConfigFromKeyring. rewrite Hv.
  cbn [run]. by rewrite Ho.
Qed.

(** [RemoveConfigFromKeyring] once validation and [Open] went through. *)
Lemma run_Remove_opened b w ring w1 :
  ValidateBackend os b = None ->
  keyring_Open (getKeyringConfig b) w = (Ok ring, w1) ->
  run (RemoveConfigFromKeyring os b) w =
  let calls := [CallOpen (getKeyringConfig b); CallRemove ring ItemKey] in
  match ring_Remove ring ItemKey w1 with
  | (Some e, w2) =>
      if decide (e = ErrKeyNotFound) then (None, w2, calls)
      else if strings_Contains (error_Error e) keychainDenied
      then (Some (Errorf (error_Error e +:+ permissionHint)), w2, calls)
      else (Some e, w2, calls)
  | (None, w2) => (None, w2, calls)
  end.
Proof.
  intros Hv Ho. unfold RemoveConfigFromKeyring. rewrite Hv.
  cbn [run]. rewrite Ho. cbn [run].
  destruct (ring_Remove ring ItemKey w1) as [[e|] w2]; cbv zeta;
    [|reflexivity].
  destruct (decide (e = ErrKeyNotFound)); [reflexivity|].
  fold keychainDenied.
  by destruct (strings_Contains (error_Error e) keychainDenied).
Qed.
End MoreAdapterFacts.

(** X3.  Whatever the keyring does, [UpsertConfigToKeyring] calls it only
    for a backend that passed validation; it first opens the store with the
    configuration of that backend and then makes at most one more call, a
    [Set] of the item with the fixed key, label and description and the
    compressed credentials, never more than 2500 bytes for the Windows
    Credential Manager; and when it returns no error it made that [Set]. *)
Theorem Upsert_calls {F : Flate} {Ring World : Type}
    {K : Keyring Ring World} (os : list string) (b : string)
    (x : list byte) (w : World) :
  let r := run (UpsertConfigToKeyring os b x) w in
  let compressed := (compressConfig x).1 in
  let written ring :=
    calls_of r = [CallOpen (getKeyringConfig b);
                  CallSet ring (credentialItem compressed)] in
  (calls_of r <> [] -> b ∈ AllowedBackends /\ b ∈ os) /\
  (calls_of r = [] \/ calls_of r = [CallOpen (getKeyringConfig b)] \/
   exists ring,
     written ring /\
     (b = WinCredBackend -> length compressed <= MaxWindowsByteSize)) /\
  (result_of r = None -> exists ring, written ring).
Proof.
  intros r compressed written. unfold written, r.
  destruct (ValidateBackend os b) as [e|] eqn:Hv.
  { rewrite (run_invalid_Upsert os b e x w Hv). cbn.
    split; [done|]. split; [by left|discriminate]. }
  pose proof (proj1 (ValidateBackend_None os b) Hv) as Hvalid.
  split; [done|].
  destruct (keyring_Open (getKeyringConfig b) w) as [[ring|e] w1] eqn:Hopen.
  2:{ rewrite (run_Upsert_not_opened os b e x w w1 Hv Hopen). cbn.
      split; [right; by left|discriminate]. }
  rewrite (run_Upsert_opened os b x w ring w1 Hv Hopen). fold compressed.
  destruct (Nat.ltb_spec MaxWindowsByteSize (length compressed)) as [Hlt|Hle];
    cbn [andb].
  - destruct (bool_decide_reflect (b = WinCredBackend)) as [Hb|Hb]; cbn.
    + split; [right; by left|discriminate].
    + split; [right; right|]; exists ring; [split|]; done.
  - cbn. split; [right; right|]; exists ring; [split|]; done.
Qed.

Lemma Upsert_calls_witness :
  exists ring,
    calls_of
      (run (K:=memory.keyring)
         (UpsertConfigToKeyring (F:=stored.flate) [KeychainBackend]
            KeychainBackend [x68; x69]) ∅)
    = [CallOpen (getKeyringConfig KeychainBackend);
       CallSet ring
         (credentialItem (compressConfig (F:=stored.flate) [x68; x69]).1)].
Proof.
  destruct (Upsert_calls (F:=stored.flate) (K:=memory.keyring)
              [KeychainBackend] KeychainBackend [x68; x69] ∅) as (_ & _ & H).
  apply H. vm_compute. reflexivity.
Defined.

(** X4.  Whatever the keyring does, [GetConfigFromKeyring] and
    [RemoveConfigFromKeyring] call it only for a backend that passed
    validation; each first opens the store with the configuration of that
    backend and then makes at most one more call, on the fixed key: a [Get]
    for the first, so a read never writes or removes, and a [Remove] for
    the second. *)
Theorem Get_Remove_calls {F : Flate} {Ring World : Type}
    {K : Keyring Ring World} (os : list string) (b : string) (w : World) :
  let g := run (GetConfigFromKeyring os b) w in
  let rm := run (RemoveConfigFromKeyring (Ring:=Ring) os b) w in
  (calls_of g <> [] \/ calls_of rm <> [] -> b ∈ AllowedBackends /\ b ∈ os) /\
  (calls_of g = [] \/ calls_of g = [CallOpen (getKeyringConfig b)] \/
   exists ring,
     calls_of g = [CallOpen (getKeyringConfig b); CallGet ring ItemKey]) /\
  (calls_of rm = [] \/ calls_of rm = [CallOpen (getKeyringConfig b)] \/
   exists ring,
     calls_of rm = [CallOpen (getKeyringConfig b); CallRemove ring ItemKey]).
Proof.
  intros g rm. unfold g, rm.
  destruct (ValidateBackend os b) as [e|] eqn:Hv.
  { rewrite (run_invalid_Get os b e w Hv), (run_invalid_Remove os b e w Hv).
    cbn. split; [intros [?|?]; done|]. split; by left. }
  pose proof (proj1 (ValidateBackend_None os b) Hv) as Hvalid.
  split; [done|].
  destruct (keyring_Open (getKeyringConfig b) w) as [[ring|e] w1] eqn:Hopen.
  2:{ rewrite (run_Get_not_opened os b e w w1 Hv Hopen),
        (run_Remove_not_opened os b e w w1 Hv Hopen). cbn.
      split; right; by left. }
  rewrite (run_Get_opened os b w ring w1 Hv Hopen),
    (run_Remove_opened os b w ring w1 Hv Hopen). cbv zeta.
  split; right; right; exists ring.
  - destruct (ring_Get ring ItemKey w1) as [[i|err] w2]; [reflexivity|].
    by destruct (decide (err = ErrKeyNotFound)).
  - destruct (ring_Remove ring ItemKey w1) as [[e|] w2]; [|reflexivity].
    destruct (decide (e = ErrKeyNotFound)); [reflexivity|].
    by destruct (strings_Contains (error_Error e) keychainDenied).
Qed.

Lemma Get_Remove_calls_witness :
  KeychainBackend ∈ AllowedBackends /\
  KeychainBackend ∈ [KeychainBackend; "file"].
Proof.
  destruct (Get_Remove_calls (F:=stored.flate) (K:=memory.keyring)
              [KeychainBackend; "file"] KeychainBackend ∅) as (H & _ & _).
  apply H. left. vm_compute. discriminate.
Defined.

(** X5.  For a valid and available backend, when [Open] fails, each of the
    three functions returns the error of [Open] as it is, with no data, and
    makes no further call. *)
Theorem open_failure {F : Flate} {Ring World : Type}
    {K : Keyring Ring World} (os : list string) (b : string)
    (x : list byte) (w : World) (e : error) (w1 : World) :
  b ∈ AllowedBackends -> b ∈ os ->
  keyring_Open (getKeyringConfig b) w = (Err e, w1) ->
  run (UpsertConfigToKeyring os b x) w
  = (Some e, w1, [CallOpen (getKeyringConfig b)]) /\
  run (GetConfigFromKeyring os b) w
  = (([], Some e), w1, [CallOpen (getKeyringConfig b)]) /\
  run (RemoveConfigFromKeyring os b) w
  = (Some e, w1, [CallOpen (getKeyringConfig b)]).
Proof.
  intros Ha Ho Hopen.
  assert (Hv : ValidateBackend os b = None) by by apply ValidateBackend_None.
  split; [|split].
  - by apply run_Upsert_not_opened.
  - by apply run_Get_not_opened.
  - by apply run_Remove_not_opened.
Qed.

Lemma open_failure_witness :
  run (K:=faulty.keyring (Some (ExternalError "locked")) None None None)
    (GetConfigFromKeyring (F:=stored.flate) [PassBackend] PassBackend) ∅
  = (([], Some (ExternalError "locked")), ∅,
     [CallOpen (getKeyringConfig PassBackend)]).
Proof.
  apply (open_failure (F:=stored.flate)
           (K:=faulty.keyring (Some (ExternalError "locked")) None None None)
           [PassBackend] PassBackend [] ∅ (ExternalError "locked") ∅).
  - apply (bool_decide_unpack _). vm_compute. exact I.
  - apply (bool_decide_unpack _). vm_compute. exact I.
  - reflexivity.
Defined.

(** X6.  Whatever the keyring does, [GetConfigFromKeyring] never returns
    data together with an error: when the error is not nil the data is
    zero-length. *)
Theorem Get_error_no_data {F : Flate} {Ring World : Type}
    {K : Keyring Ring World} (os : list string) (b : string) (w : World) :
  (result_of (run (GetConfigFromKeyring os b) w)).2 <> None ->
  (result_of (run (GetConfigFromKeyring os b) w)).1 = [].
Proof.
  destruct (ValidateBackend os b) as [e|] eqn:Hv.
  { by rewrite (run_invalid_Get os b e w Hv). }
  destruct (keyring_Open (getKeyringConfig b) w) as [[ring|e] w1] eqn:Hopen.
  2:{ by rewrite (run_Get_not_opened os b e w w1 Hv Hopen). }
  rewrite (run_Get_opened os b w ring w1 Hv Hopen). cbv zeta.
  assert (Hafter : forall c : list byte,
    (if (length c =? 0)%nat then (c, None)
     else match decompressConfig c with
          | (_, Some err) => ([], Some err)
          | (creds, None) => (creds, None)
          end).2 <> None ->
    (if (length c =? 0)%nat then (c, None)
     else match decompressConfig c with
          | (_, Some err) => ([], Some err)
          | (creds, None) => (creds, None)
          end).1 = []).
  { intros c. destruct (length c =? 0)%nat; [done|].
    by destruct (decompressConfig c) as [creds [err|]]. }
  destruct (ring_Get ring ItemKey w1) as [[i|err] w2].
  - exact (Hafter (Data i)).
  - destruct (decide (err = ErrKeyNotFound)); [exact (Hafter [])|done].
Qed.

Lemma Get_error_no_data_witness :
  (result_of
     (run (K:=faulty.keyring None (Some (ExternalError "io")) None None)
        (GetConfigFromKeyring (F:=stored.flate) [PassBackend] PassBackend)
        ∅)).1 = [].
Proof.
  apply (Get_error_no_data (F:=stored.flate)
           (K:=faulty.keyring None (Some (ExternalError "io")) None None)
           [PassBackend] PassBackend ∅).
  vm_compute. discriminate.
Defined.

(** X7.  For a valid and available backend, once [Open] went through, an
    error of [Get] other than the not-found error is returned as it is,
    with zero-length data and without decompressing anything. *)
Theorem get_failure {F : Flate} {Ring World : Type}
    {K : Keyring Ring World} (os : list string) (b : string)
    (w : World) (ring : Ring) (w1 : World) (e : error) (w2 : World) :
  b ∈ AllowedBackends -> b ∈ os ->
  keyring_Open (getKeyringConfig b) w = (Ok ring, w1) ->
  ring_Get ring ItemKey w1 = (Err e, w2) ->
  e <> ErrKeyNotFound ->
  run (GetConfigFromKeyring os b) w
  = (([], Some e), w2, [CallOpen (getKeyringConfig b); CallGet ring ItemKey]).
Proof.
  intros Ha Ho Hopen Hget Hne.
  assert (Hv : ValidateBackend os b = None) by by apply ValidateBackend_None.
  rewrite (run_Get_opened os b w ring w1 Hv Hopen), Hget. cbv zeta.
  by rewrite decide_False.
Qed.

Lemma get_failure_witness :
  run (K:=faulty.keyring None (Some (ExternalError "io")) None None)
    (GetConfigFromKeyring (F:=stored.flate) [PassBackend] PassBackend) ∅
  = (([], Some (ExternalError "io")), ∅,
     [CallOpen (getKeyringConfig PassBackend); CallGet PassBackend ItemKey]).
Proof.
  apply (get_failure (F:=stored.flate)
           (K:=faulty.keyring None (Some (ExternalError "io")) None None)
           [PassBackend] PassBackend ∅ PassBackend ∅ (ExternalError "io") ∅).
  - apply (bool_decide_unpack _). vm_compute. exact I.
  - apply (bool_decide_unpack _). vm_compute. exact I.
  - reflexivity.
  - reflexivity.
  - discriminate.
Defined.

(** ** Removal *)

Lemma prefix_append (s t : string) : String.prefix s (s +:+ t) = true.
Proof.
  induction s as [|c s IH]; simpl.
  - by destruct t.
  - destruct (Ascii.ascii_dec c c); [exact IH|done].
Qed.

(** The keyring in memory forgets what was removed. *)
Lemma memory_forgets_items : forgets_items memory.keyring.
Proof.
  intros cfg w ring w1 key r w2.
  cbn [keyring_Open ring_Remove ring_Get memory.keyring].
  unfold memory.open, memory.remove, memory.get.
  destruct (cfg_AllowedBackends cfg) as [|b l]; [discriminate|].
  intros [= <- <-] Hrm _.
  case_match eqn:Hw; injection Hrm as <- <-.
  - eexists _, _, _. split; [reflexivity|]. by rewrite lookup_delete_eq.
  - eexists _, _, _. split; [reflexivity|]. by rewrite Hw.
Qed.

(** X8.  For a valid and available backend, once [Open] went through,
    [RemoveConfigFromKeyring] returns no error exactly when [Remove]
    answered no error or the not-found error.  Any other error of [Remove]
    whose text holds the Keychain permission signature comes back as a new
    error whose text is the original text followed by the permission hint;
    any other error comes back as it is. *)
Theorem remove_outcomes {Ring World : Type} {K : Keyring Ring World}
    (os : list string) (b : string) (w : World) (ring : Ring) (w1 : World)
    (r : option error) (w2 : World) :
  b ∈ AllowedBackends -> b ∈ os ->
  keyring_Open (getKeyringConfig b) w = (Ok ring, w1) ->
  ring_Remove ring ItemKey w1 = (r, w2) ->
  let res := result_of (run (RemoveConfigFromKeyring os b) w) in
  (res = None <-> r = None \/ r = Some ErrKeyNotFound) /\
  (forall e, r = Some e -> e <> ErrKeyNotFound ->
     strings_Contains (error_Error e) keychainDenied = true ->
     res = Some (Errorf (error_Error e +:+ permissionHint)) /\
     forall e', res = Some e' ->
                String.prefix (error_Error e) (error_Error e') = true) /\
  (forall e, r = Some e -> e <> ErrKeyNotFound ->
     strings_Contains (error_Error e) keychainDenied = false ->
     res = Some e).
Proof.
  intros Ha Ho Hopen Hrm res. unfold res.
  assert (Hv : ValidateBackend os b = None) by by apply ValidateBackend_None.
  rewrite (run_Remove_opened os b w ring w1 Hv Hopen), Hrm. cbv zeta.
  destruct r as [e|].
  - destruct (decide (e = ErrKeyNotFound)) as [->|Hne].
    + split; [split; [by right|done]|].
      split; intros e0 He0 Hne0; injection He0 as <-; done.
    + destruct (strings_Contains (error_Error e) keychainDenied) eqn:Hc;
        cbn.
      * split.
        { split; [discriminate|]. intros [Hr|Hr]; [discriminate|].
          injection Hr as ->. done. }
        split.
        { intros e0 He0 _ _. injection He0 as <-. split; [reflexivity|].
          intros e' He'. injection He' as <-. apply prefix_append. }
        intros e0 He0 _ Hc0. injection He0 as <-. congruence.
      * split.
        { split; [discriminate|]. intros [Hr|Hr]; [discriminate|].
          injection Hr as ->. done. }
        split.
        { intros e0 He0 _ Hc0. injection He0 as <-. congruence. }
        intros e0 He0 _ _. by injection He0 as <-.
  - cbn. split; [split; [by left|done]|]. split; intros e He; discriminate.
Qed.

Lemma remove_outcomes_witness :
  result_of
    (run (K:=faulty.keyring None None None
                (Some (ExternalError "Keychain Error. (-25244)")))
       (RemoveConfigFromKeyring (Ring:=memory.Ring) [KeychainBackend]
          KeychainBackend) ∅)
  = Some (Errorf ("Keychain Error. (-25244)" +:+ permissionHint)).
Proof.
  destruct (remove_outcomes
              (K:=faulty.keyring None None None
                    (Some (ExternalError "Keychain Error. (-25244)")))
              [KeychainBackend] KeychainBackend ∅ KeychainBackend ∅
              (Some (ExternalError "Keychain Error. (-25244)")) ∅)
    as (_ & H & _).
  - apply (bool_decide_unpack _). vm_compute. exact I.
  - apply (bool_decide_unpack _). vm_compute. exact I.
  - reflexivity.
  - reflexivity.
  - apply (H (ExternalError "Keychain Error. (-25244)")).
    + reflexivity.
    + discriminate.
    + vm_compute. reflexivity.
Defined.

(** X9.  On a keyring that forgets what was removed, after a
    [RemoveConfigFromKeyring] that returned no error the
    [GetConfigFromKeyring] that follows it returns a zero-length result and
    no error. *)
Theorem remove_then_get {F : Flate} {Ring World : Type}
    {K : Keyring Ring World} (HK : forgets_items K)
    (os : list string) (b : string) (w : World) :
  result_of (run (RemoveConfigFromKeyring (Ring:=Ring) os b) w) = None ->
  result_of
    (run (GetConfigFromKeyring os b)
       (world_of (run (RemoveConfigFromKeyring (Ring:=Ring) os b) w)))
  = ([], None).
Proof.
  destruct (ValidateBackend os b) as [e|] eqn:Hv.
  { by rewrite (run_invalid_Remove os b e w Hv). }
  destruct (keyring_Open (getKeyringConfig b) w) as [[ring|e] w1] eqn:Hopen.
  2:{ by rewrite (run_Remove_not_opened os b e w w1 Hv Hopen). }
  rewrite (run_Remove_opened os b w ring w1 Hv Hopen). cbv zeta.
  destruct (ring_Remove ring ItemKey w1) as [r w2] eqn:Hrm.
  assert (Hgone : r = None \/ r = Some ErrKeyNotFound ->
    result_of (run (GetConfigFromKeyring os b) w2) = ([], None)).
  { intros Hr.
    destruct (HK _ _ _ _ _ _ _ Hopen Hrm Hr) as (ring' & w3 & w4 & Ho' & Hg).
    by rewrite (run_Get_opened os b w2 ring' w3 Hv Ho'), Hg. }
  destruct r as [e|].
  - destruct (decide (e = ErrKeyNotFound)) as [->|Hne].
    + intros _. apply Hgone. by right.
    + by destruct (strings_Contains (error_Error e) keychainDenied).
  - intros _. apply Hgone. by left.
Qed.

Lemma remove_then_get_witness :
  result_of
    (run (K:=memory.keyring)
       (GetConfigFromKeyring (F:=stored.flate) [KeychainBackend]
          KeychainBackend)
       (world_of
          (run (K:=memory.keyring)
             (RemoveConfigFromKeyring (Ring:=memory.Ring) [KeychainBackend]
                KeychainBackend)
             {[ (KeychainBackend, ItemKey) := credentialItem [x68; x69] ]})))
  = ([], None).
Proof.
  apply (remove_then_get (F:=stored.flate) (K:=memory.keyring)
           memory_forgets_items).
  vm_compute. reflexivity.
Defined.

(** ** The codec on damaged and joined blobs *)

Section MoreCodecFacts.
Context {F : Flate}.

Lemma byte_of_N_to_N (b : byte) (k : N) :
  byte_of_N (Byte.to_N b + 256 * k) = b.
Proof.
  unfold byte_of_N.
  replace ((Byte.to_N b + 256 * k) mod 256)%N with (Byte.to_N b).
  - by rewrite Byte.of_to_N.
  - pose proof (Byte.to_N_bounded b).
    rewrite (N.mul_comm 256 k), N.Div0.mod_add.
    symmetry. apply N.mod_small. lia.
Qed.

Lemma div_to_N (b : byte) (k : N) : ((Byte.to_N b + 256 * k) / 256 = k)%N.
Proof.
  pose proof (Byte.to_N_bounded b).
  rewrite (N.mul_comm 256 k), N.div_add by discriminate.
  rewrite N.div_small by lia. lia.
Qed.

(** Four bytes are the little-endian form of the number they decode to. *)
Lemma le_PutUint32_Uint (a b c d : byte) :
  le_PutUint32 (le_Uint [a; b; c; d]) = [a; b; c; d].
Proof.
  unfold le_PutUint32. cbn [le_Uint].
  change 65536%N with (256 * 256)%N.
  change 16777216%N with (256 * 256 * 256)%N.
  by rewrite <- !N.Div0.div_div, !div_to_N, !byte_of_N_to_N.
Qed.

(** [io.ReadFull] of eight bytes from exactly eight. *)
Lemma io_ReadFull_8 (t : list byte) :
  length t = 8 -> gzip.io_ReadFull t 8 = Ok (t, []).
Proof.
  intros Ht. rewrite <- Ht, <- (app_nil_r t) at 1. apply io_ReadFull_app.
Qed.

Lemma io_ReadFull_short (t : list byte) (n : nat) :
  length t < n ->
  exists e, gzip.io_ReadFull t n = Err e /\
            gzip.noEOF e = io_ErrUnexpectedEOF.
Proof.
  intros Ht. unfold gzip.io_ReadFull.
  destruct n as [|n]; [lia|]. destruct t as [|b t].
  - by exists io_EOF.
  - rewrite (proj2 (Nat.ltb_lt _ _)) by done. by exists io_ErrUnexpectedEOF.
Qed.

(** The accumulator of [readMembers] only collects. *)
Lemma readMembers_acc (fuel : nat) (r acc : list byte) :
  gzip.readMembers fuel r acc
  = (acc ++ (gzip.readMembers fuel r []).1, (gzip.readMembers fuel r []).2).
Proof.
  revert r acc. induction fuel as [|fuel IH]; intros r acc;
    rewrite (readMembers_unfold _ r acc), (readMembers_unfold _ r []).
  all: destruct (flate_decompress r) as [[data n]|e];
    [|by rewrite app_nil_r].
  all: cbv zeta; cbn [app].
  all: destruct (gzip.io_ReadFull (drop n r) 8) as [[buf r1]|e];
    [|reflexivity].
  all: destruct (decide _); [|reflexivity].
  all: destruct (gzip.readHeader r1) as [r2|e];
    [|by destruct (decide (e = io_EOF))].
  - reflexivity.
  - rewrite (IH r2 (acc ++ data)), (IH r2 data). cbn [fst snd].
    by rewrite app_assoc.
Qed.

(** One member with more input behind it. *)
Lemma readMembers_member_rest (HF : flate_lawful F) (fuel : nat)
    (x rest acc : list byte) :
  gzip.readMembers fuel (flate_compress x ++ trailer x ++ rest) acc
  = match gzip.readHeader rest with
    | Err e =>
        if decide (e = io_EOF) then (acc ++ x, None) else (acc ++ x, Some e)
    | Ok r =>
        match fuel with
        | O => (acc ++ x, Some io_ErrUnexpectedEOF)
        | S fuel => gzip.readMembers fuel r (acc ++ x)
        end
    end.
Proof.
  rewrite readMembers_unfold, HF. cbv zeta.
  rewrite drop_app_length.
  change 8%nat with (length (trailer x)).
  rewrite io_ReadFull_app.
  rewrite decide_True; [reflexivity|].
  unfold trailer. split.
  - rewrite le_Uint32_PutUint32. apply uint32_small, ChecksumIEEE_lt32.
  - change (drop 4 (le_PutUint32 ?a ++ ?b)) with b.
    rewrite <- (app_nil_r (le_PutUint32 _)), le_Uint32_PutUint32.
    apply uint32_small, uint32_bound.
Qed.

(** Only the empty input makes [readHeader] answer [io.EOF]. *)
Lemma readHeader_EOF (r : list byte) :
  gzip.readHeader r = Err io_EOF -> r = [].
Proof.
  destruct r as [|b r]; [done|]. unfold gzip.readHeader.
  assert (Hno : forall e, gzip.noEOF e <> io_EOF).
  { intros e. unfold gzip.noEOF. by destruct (decide (e = io_EOF)). }
  destruct (gzip.io_ReadFull (b :: r) 10) as [[buf r0]|e] eqn:H0.
  2:{ unfold gzip.io_ReadFull in H0.
      destruct (length (b :: r) <? 10)%nat; [|discriminate].
      injection H0 as <-. discriminate. }
  destruct buf as [|id1 [|id2 [|cm [|flg buf]]]]; try discriminate.
  destruct (decide _); [|discriminate].
  unfold gzip.readExtra, gzip.readField, gzip.readHdrCrc.
  repeat match goal with
         | |- context [if ?c then _ else _] => destruct c
         | |- context [match gzip.io_ReadFull ?a ?b with _ => _ end] =>
             destruct (gzip.io_ReadFull a b) as [[? ?]|?]
         | |- context [match gzip.readString ?a ?b with _ => _ end] =>
             destruct (gzip.readString a b) as [[? ?]|?]
         end;
    try discriminate; intros [= He]; by apply Hno in He.
Qed.
End MoreCodecFacts.

(** X10.  [decompressConfig] rejects what does not begin like a gzip
    stream: the empty input with [io.EOF], an input of fewer than ten bytes
    with [io.ErrUnexpectedEOF], and an input of ten bytes or more whose
    first three bytes are not the gzip magic number and the deflate method
    with [gzip.ErrHeader]. *)
Theorem decompressConfig_not_gzip {F : Flate} (creds : list byte) :
  (creds = [] -> decompressConfig creds = ([], Some io_EOF)) /\
  (0 < length creds < 10 ->
   decompressConfig creds = ([], Some io_ErrUnexpectedEOF)) /\
  (10 <= length creds ->
   take 3 creds <> [gzip.gzipID1; gzip.gzipID2; gzip.gzipDeflate] ->
   decompressConfig creds = ([], Some gzip_ErrHeader)).
Proof.
  split; [|split].
  - by intros ->.
  - intros [Hpos Hlt]. unfold decompressConfig, gzip.NewReader,
      gzip.readHeader, gzip.io_ReadFull.
    destruct creds as [|c creds]; [cbn in Hpos; lia|].
    by rewrite (proj2 (Nat.ltb_lt _ _)) by done.
  - intros Hlen Hmagic.
    do 10 (destruct creds as [|? creds]; [cbn in Hlen; lia|]).
    unfold decompressConfig, gzip.NewReader, gzip.readHeader.
    cbn [gzip.io_ReadFull length Nat.ltb Nat.leb take drop].
    cbn [take] in Hmagic.
    rewrite decide_False; [reflexivity|].
    intros (-> & -> & ->). by apply Hmagic.
Qed.

Lemma decompressConfig_not_gzip_witness :
  decompressConfig (F:=stored.flate)
    [x7b; x22; x61; x22; x3a; x22; x62; x22; x7d; x0a]
  = ([], Some gzip_ErrHeader).
Proof.
  apply (decompressConfig_not_gzip (F:=stored.flate)
           [x7b; x22; x61; x22; x3a; x22; x62; x22; x7d; x0a]).
  - cbn. lia.
  - discriminate.
Defined.

(** X11.  A stored blob whose last eight bytes, the checksum and the
    length, were replaced by eight other bytes is rejected with
    [gzip.ErrChecksum]; a blob cut short within its last eight bytes is
    rejected with [io.ErrUnexpectedEOF]. *)
Theorem decompressConfig_bad_trailer {F : Flate} (HF : flate_lawful F)
    (x t : list byte) :
  let blob := (compressConfig x).1 in
  let body := take (length blob - 8) blob in
  (length t = 8 -> t <> drop (length blob - 8) blob ->
   decompressConfig (body ++ t) = ([], Some gzip_ErrChecksum)) /\
  (length t < 8 ->
   decompressConfig (body ++ t) = ([], Some io_ErrUnexpectedEOF)).
Proof.
  intros blob body.
  assert (Hblob : blob = (gzip.header ++ flate_compress x) ++ trailer x).
  { unfold blob. rewrite compressConfig_eq. cbn [fst]. unfold trailer.
    by rewrite <- !app_assoc. }
  assert (Hcut : length blob - 8 = length (gzip.header ++ flate_compress x)).
  { rewrite Hblob, length_app. change (length (trailer x)) with 8. lia. }
  assert (Hbody : body = gzip.header ++ flate_compress x).
  { unfold body. by rewrite Hcut, Hblob, take_app_length. }
  assert (Hlast : drop (length blob - 8) blob = trailer x).
  { by rewrite Hcut, Hblob, drop_app_length. }
  rewrite Hbody, Hlast, <- !app_assoc.
  unfold decompressConfig, gzip.NewReader, gzip.io_ReadAll.
  rewrite !readHeader_header, !readMembers_unfold, !HF. cbv zeta.
  rewrite !drop_app_length. cbn [app].
  split.
  - intros Ht Hne. rewrite (io_ReadFull_8 t Ht).
    rewrite decide_False; [reflexivity|].
    intros [Hcrc Hsize]. apply Hne.
    do 8 (destruct t as [|? t]; [discriminate|]).
    destruct t; [|discriminate].
    unfold le_Uint32 in Hcrc, Hsize. cbn [take drop] in Hcrc, Hsize.
    unfold trailer. rewrite <- Hcrc, <- Hsize.
    by rewrite !le_PutUint32_Uint.
  - intros Ht. destruct (io_ReadFull_short t 8 Ht) as (e & -> & He).
    by rewrite He.
Qed.

Lemma decompressConfig_bad_trailer_witness :
  decompressConfig (F:=stored.flate)
    (take (length (compressConfig (F:=stored.flate) [x68; x69]).1 - 8)
          (compressConfig (F:=stored.flate) [x68; x69]).1
       ++ [x00; x00; x00; x00; x02; x00; x00; x00])
  = ([], Some gzip_ErrChecksum).
Proof.
  apply (decompressConfig_bad_trailer stored_flate_lawful [x68; x69]
           [x00; x00; x00; x00; x02; x00; x00; x00]).
  - reflexivity.
  - vm_compute. discriminate.
Defined.

(** X12.  Data behind a stored blob is read as further gzip members: for
    a non-empty [rest], [decompressConfig] of the blob of [x] followed by
    [rest] fails with the error of [decompressConfig rest] when that fails,
    and otherwise returns [x] followed by what [rest] decompresses to.  In
    particular two blobs one after the other decompress to the two inputs
    one after the other. *)
Theorem decompressConfig_append {F : Flate} (HF : flate_lawful F)
    (x rest : list byte) :
  (rest <> [] ->
   decompressConfig ((compressConfig x).1 ++ rest)
   = match decompressConfig rest with
     | (_, Some err) => ([], Some err)
     | (y, None) => (x ++ y, None)
     end) /\
  (forall y,
     decompressConfig ((compressConfig x).1 ++ (compressConfig y).1)
     = (x ++ y, None)).
Proof.
  assert (Hgen : forall rest, rest <> [] ->
    decompressConfig ((compressConfig x).1 ++ rest)
    = match decompressConfig rest with
      | (_, Some err) => ([], Some err)
      | (y, None) => (x ++ y, None)
      end).
  { clear rest. intros rest Hne. rewrite compressConfig_eq. cbn [fst].
    fold (trailer x). rewrite <- !app_assoc.
    unfold decompressConfig at 1. unfold gzip.NewReader, gzip.io_ReadAll.
    rewrite readHeader_header, (readMembers_member_rest HF). cbn [app].
    unfold decompressConfig, gzip.NewReader.
    destruct (gzip.readHeader rest) as [r|e] eqn:Hh.
    - apply readHeader_Ok in Hh.
      rewrite !length_app.
      destruct (length (flate_compress x) + (length (trailer x) + length rest))
        as [|fuel] eqn:Hfuel; [lia|].
      rewrite readMembers_acc. cbn [app].
      rewrite (readMembers_fuel fuel (length r)) by lia.
      fold (gzip.io_ReadAll r).
      by destruct (gzip.io_ReadAll r) as [y [err|]].
    - destruct (decide (e = io_EOF)) as [->|He]; [|reflexivity].
      by apply readHeader_EOF in Hh. }
  split; [apply Hgen|].
  intros y. rewrite Hgen.
  - by rewrite (decompressConfig_compressConfig HF).
  - apply compressConfig_nonempty.
Qed.

Lemma decompressConfig_append_witness :
  decompressConfig (F:=stored.flate)
    ((compressConfig (F:=stored.flate) [x68]).1 ++ [x00])
  = match decompressConfig (F:=stored.flate) [x00] with
    | (_, Some err) => ([], Some err)
    | (y, None) => ([x68] ++ y, None)
    end.
Proof.
  destruct (decompressConfig_append stored_flate_lawful [x68] [x00])
    as [H _].
  apply H. discriminate.
Defined.

(** X13.  Different credentials never give the same stored blob. *)
Theorem compressConfig_injective {F : Flate} (HF : flate_lawful F)
    (x y : list byte) :
  x <> y -> (compressConfig x).1 <> (compressConfig y).1.
Proof.
  intros Hne Heq. apply Hne.
  pose proof (decompressConfig_compressConfig HF x) as Hx.
  rewrite Heq, (decompressConfig_compressConfig HF y) in Hx.
  by injection Hx.
Qed.

Lemma compressConfig_injective_witness :
  (compressConfig (F:=stored.flate) [x68]).1
  <> (compressConfig (F:=stored.flate) [x69]).1.
Proof.
  apply (compressConfig_injective stored_flate_lawful [x68] [x69]).
  discriminate.
Defined.

(** X14.  For a valid and available backend, once [Open] went through and
    [Get] answered an item: an item with zero-length data gives a
    zero-length result and no error, without any decompression (which
    would fail on the empty input); an item whose data decompresses gives
    the decompressed data and no error. *)
Theorem get_present {F : Flate} {Ring World : Type}
    {K : Keyring Ring World} (os : list string) (b : string)
    (w : World) (ring : Ring) (w1 : World) (item : Item) (w2 : World) :
  b ∈ AllowedBackends -> b ∈ os ->
  keyring_Open (getKeyringConfig b) w = (Ok ring, w1) ->
  ring_Get ring ItemKey w1 = (Ok item, w2) ->
  let calls := [CallOpen (getKeyringConfig b); CallGet ring ItemKey] in
  (Data item = [] ->
   run (GetConfigFromKeyring os b) w = (([], None), w2, calls) /\
   (decompressConfig (Data item)).2 = Some io_EOF) /\
  (forall y, Data item <> [] -> decompressConfig (Data item) = (y, None) ->
             run (GetConfigFromKeyring os b) w = ((y, None), w2, calls)).
Proof.
  intros Ha Ho Hopen Hget calls.
  assert (Hv : ValidateBackend os b = None) by by apply ValidateBackend_None.
  rewrite (run_Get_opened os b w ring w1 Hv Hopen), Hget. cbv zeta.
  split.
  - intros ->. split; reflexivity.
  - intros y Hne Hy. destruct (Data item) as [|d0 d]; [done|].
    cbn [length Nat.eqb]. by rewrite Hy.
Qed.

Lemma get_present_witness :
  run (K:=memory.keyring)
    (GetConfigFromKeyring (F:=stored.flate) [KeychainBackend]
       KeychainBackend)
    {[ (KeychainBackend, ItemKey) := credentialItem [] ]}
  = (([], None),
     {[ (KeychainBackend, ItemKey) := credentialItem [] ]},
     [CallOpen (getKeyringConfig KeychainBackend);
      CallGet KeychainBackend ItemKey]).
Proof.
  destruct (get_present (F:=stored.flate) (K:=memory.keyring)
              [KeychainBackend] KeychainBackend
              {[ (KeychainBackend, ItemKey) := credentialItem [] ]}
              KeychainBackend
              {[ (KeychainBackend, ItemKey) := credentialItem [] ]}
              (credentialItem [])
              {[ (KeychainBackend, ItemKey) := credentialItem [] ]})
    as [H _].
  - apply (bool_decide_unpack _). vm_compute. exact I.
  - apply (bool_decide_unpack _). vm_compute. exact I.
  - reflexivity.
  - cbn [ring_Get memory.keyring]. unfold memory.get.
    rewrite lookup_singleton_eq. reflexivity.
  - apply H. reflexivity.
Defined.
